(** * Graceful shutdown: the signal-to-cleanup orchestration of handler.go

    A shallow embedding of package [gracefulshutdown] (handler.go):
    [Handle], [HandleAndTerminate] and the shared [do].

    The Go runtime pieces the package leans on are modelled first:
    buffered channels ([Chan]) and the os/signal registration table
    ([OsSignal]).  The package itself follows in [Section Handler], written
    in a small outcome monad that threads the caller's logger, the state the
    resources act on, the signals the operating system is still to deliver,
    and a ghost trace of every call made through the two interfaces. *)

From Stdlib Require Import ZArith List String Ascii Bool Lia DecimalString DecimalZ.
Import ListNotations.
Open Scope string_scope.

(** [%d] of an [int]: its decimal digits. *)
Definition itoa (n : Z) : string := NilEmpty.string_of_int (Z.to_int n).

(* ================================================================= *)
(** ** Go channels *)

Module Chan.

(** A channel of element type [A]: the queued values (oldest first), the
    capacity given to [make], and whether [close] was called. *)
Record chan (A : Type) : Type := mkChan {
  buf : list A;
  cap : nat;
  closed : bool
}.
Arguments mkChan {A} _ _ _.
Arguments buf {A} _.
Arguments cap {A} _.
Arguments closed {A} _.

(** [make(chan A, n)] *)
Definition make {A : Type} (n : nat) : chan A := mkChan [] n false.

Inductive SendResult (A : Type) : Type :=
| Sent (c : chan A)
| SendBlocks
| SendPanics.
Arguments Sent {A} _.
Arguments SendBlocks {A}.
Arguments SendPanics {A}.

(** [c <- v] with no receiver waiting: panics on a closed channel, queues
    the value while there is room, blocks otherwise. *)
Definition send {A : Type} (c : chan A) (v : A) : SendResult A :=
  if closed c then SendPanics
  else if (List.length (buf c) <? cap c)%nat
       then Sent (mkChan (buf c ++ [v])%list (cap c) (closed c))
       else SendBlocks.

Inductive RecvResult (A : Type) : Type :=
| Received (v : A) (c : chan A)
| RecvClosed
| RecvBlocks.
Arguments Received {A} _ _.
Arguments RecvClosed {A}.
Arguments RecvBlocks {A}.

(** [<-c] with no sender waiting: the oldest queued value if there is one
    (also after [close]); on an empty closed channel the receive completes
    at once with the zero value ([RecvClosed]); on an empty open channel
    it blocks. *)
Definition recv {A : Type} (c : chan A) : RecvResult A :=
  match buf c with
  | v :: rest => Received v (mkChan rest (cap c) (closed c))
  | [] => if closed c then RecvClosed else RecvBlocks
  end.

(** [close(c)]: [None] is the panic on closing a closed channel. *)
Definition close {A : Type} (c : chan A) : option (chan A) :=
  if closed c then None else Some (mkChan (buf c) (cap c) true).

(** [select { case c <- v: default: }]: [None] is the panic on a closed
    channel. *)
Definition trySend {A : Type} (c : chan A) (v : A) : option (chan A) :=
  match send c v with
  | Sent c' => Some c'
  | SendBlocks => Some c
  | SendPanics => None
  end.

(** What a reader sees on successive receives: [Some v] for a value
    ([v] is the element type's zero value once the channel is closed and
    drained), [None] when the receive blocks. *)
Definition recvOr {A : Type} (zero : A) (c : chan A) : option (A * chan A) :=
  match recv c with
  | Received v c' => Some (v, c')
  | RecvClosed => Some (zero, c)
  | RecvBlocks => None
  end.

Fixpoint nthRecv {A : Type} (zero : A) (c : chan A) (n : nat) : option A :=
  match recvOr zero c with
  | None => None
  | Some (v, c') =>
      match n with
      | O => Some v
      | S m => nthRecv zero c' m
      end
  end.

End Chan.

(* ================================================================= *)
(** ** Signals and os/signal *)

Module OsSignal.

Local Open Scope Z_scope.

(** [syscall.Signal] is an [int]. *)
Definition Signal : Type := Z.

Definition SIGHUP : Signal := 1.
Definition SIGINT : Signal := 2.
Definition SIGQUIT : Signal := 3.
Definition SIGKILL : Signal := 9.
Definition SIGUSR1 : Signal := 10.
Definition SIGTERM : Signal := 15.

(** [syscall.Signal.String]: the name from the platform table (Linux), or
    ["signal N"] for a number the table does not name. *)
Definition signalName (s : Signal) : string :=
  match s with
  | 1 => "hangup"
  | 2 => "interrupt"
  | 3 => "quit"
  | 4 => "illegal instruction"
  | 5 => "trace/breakpoint trap"
  | 6 => "aborted"
  | 7 => "bus error"
  | 8 => "floating point exception"
  | 9 => "killed"
  | 10 => "user defined signal 1"
  | 11 => "segmentation fault"
  | 12 => "user defined signal 2"
  | 13 => "broken pipe"
  | 14 => "alarm clock"
  | 15 => "terminated"
  | _ => "signal " ++ itoa s
  end.

Definition numSig : Z := 65.

(** [signum]: the signal's number, or -1 when it is out of range. *)
Definition signum (sig : Signal) : Z :=
  if (sig <? 0) || (numSig <=? sig) then -1 else sig.

(** The per-channel [handler]: a bit vector over signal numbers (the
    runtime keeps it as [(numSig+31)/32] words of 32 bits; bit [n] of
    [mask] is bit [n & 31] of word [n / 32]). *)
Record handler : Type := mkHandler { mask : Z }.

Definition want (h : handler) (n : Z) : bool := Z.testbit (mask h) n.

Definition set (h : handler) (n : Z) : handler :=
  mkHandler (Z.lor (mask h) (Z.shiftl 1 n)).

(** The closure [add] of [Notify]: out-of-range numbers are skipped, and
    the bit is set only when the handler does not want the signal yet. *)
Definition add (h : handler) (n : Z) : handler :=
  if n <? 0 then h
  else if want h n then h
  else set h n.

(** [signal.Notify(c, sig...)] on a channel with no handler yet: the
    handler that ends up registered for [c].  With no signal listed every
    signal is wanted. *)
Definition Notify (sig : list Signal) : handler :=
  match sig with
  | [] => fold_left add (map Z.of_nat (seq 0%nat (Z.to_nat numSig))) (mkHandler 0)
  | _ => fold_left (fun h s => add h (signum s)) sig (mkHandler 0)
  end.

(** [process(sig)] for the one registered channel [c]: the runtime hands
    the signal over with a send that never blocks.  [None] is the panic of
    a send on a closed channel. *)
Definition process (h : handler) (sig : Signal) (c : Chan.chan Signal)
  : option (Chan.chan Signal) :=
  let n := signum sig in
  if n <? 0 then Some c
  else if want h n then Chan.trySend c sig
  else Some c.

(** An [os.Signal] interface value: [None] is [nil]. *)
Definition formatV (osSignal : option Signal) : string :=
  match osSignal with
  | Some s => signalName s
  | None => "<nil>"
  end.

Inductive Wait : Type :=
| Woken (osSignal : option Signal) (rest : list Signal)
| Starved
| Crashed.

(** A goroutine evaluating [<-c] while the runtime delivers [sigs], in
    order, to the handler [h] of [c].  The receive completes as soon as
    [c] holds a value; the signals not yet delivered then are returned.
    [Starved]: every signal was delivered and the receive still blocks. *)
Fixpoint await (h : handler) (c : Chan.chan Signal) (sigs : list Signal)
  {struct sigs} : Wait :=
  match Chan.recv c with
  | Chan.Received v _ => Woken (Some v) sigs
  | Chan.RecvClosed => Woken None sigs
  | Chan.RecvBlocks =>
      match sigs with
      | [] => Starved
      | sig :: rest =>
          match process h sig c with
          | Some c' => await h c' rest
          | None => Crashed
          end
      end
  end.

End OsSignal.

(* ================================================================= *)
(** ** The package's two interfaces *)

(** A non-nil [error], as far as the package looks at it: the text
    [err.Error()] returns. *)
Definition error : Type := string.

(** [type Closeable interface { Close() error }]: a resource acts on the
    state [W] of the host application; [None] is the [nil] error.  A
    [Close] that panics or never returns is not described. *)
Record Closeable (W : Type) : Type := mkCloseable {
  Close : W -> option error * W
}.
Arguments mkCloseable {W} _.
Arguments Close {W} _ _.

(** [type Logger interface { Info; Warn; Error }] over the logger's own
    state [L].  The package passes the message and no further argument. *)
Class Logger (L : Type) : Type := mkLogger {
  Info : string -> L -> L;
  Warn : string -> L -> L;
  Error : string -> L -> L
}.

Inductive Level : Type := INFO | WARN | ERROR.

(** One call through an interface: a logger method with its message, or
    [Close] on the resource at index [i] with what it returned. *)
Inductive Event : Type :=
| Log (level : Level) (msg : string)
| CloseCall (i : nat) (err : option error).

(* ================================================================= *)
(** ** handler.go *)

Section Handler.

Context {L W : Type} `{Logger L}.

Import Chan OsSignal.

(** What one call runs against: the logger, the resources' state, the
    signals the runtime hands to os/signal from now on (in order), and the
    calls made so far. *)
Record State : Type := mkState {
  loggerSt : L;
  world : W;
  signals : list Signal;
  trace : list Event
}.

(** How a call ends: it returns, it waits forever, the process exits
    ([os.Exit]) or it panics. *)
Inductive Outcome (A : Type) : Type :=
| Returned (a : A) (s : State)
| Blocked (s : State)
| Exited (code : Z) (s : State)
| Panicked (s : State).
Arguments Returned {A} _ _.
Arguments Blocked {A} _.
Arguments Exited {A} _ _.
Arguments Panicked {A} _.

Definition M (A : Type) : Type := State -> Outcome A.

Definition ret {A : Type} (a : A) : M A := fun s => Returned a s.

Definition bind {A B : Type} (m : M A) (k : A -> M B) : M B :=
  fun s =>
    match m s with
    | Returned a s' => k a s'
    | Blocked s' => Blocked s'
    | Exited code s' => Exited code s'
    | Panicked s' => Panicked s'
    end.

Local Notation "x <- m ;; k" := (bind m (fun x => k))
  (at level 61, m at next level, right associativity).
Local Notation "m ;; k" := (bind m (fun _ => k))
  (at level 61, right associativity).

Definition record (e : Event) (s : State) : list Event :=
  (trace s ++ [e])%list.

(** [logger.Info(msg)], [logger.Warn(msg)], [logger.Error(msg)] *)
Definition callInfo (msg : string) : M unit :=
  fun s => Returned tt
    (mkState (Info msg (loggerSt s)) (world s) (signals s)
             (record (Log INFO msg) s)).

Definition callWarn (msg : string) : M unit :=
  fun s => Returned tt
    (mkState (Warn msg (loggerSt s)) (world s) (signals s)
             (record (Log WARN msg) s)).

Definition callError (msg : string) : M unit :=
  fun s => Returned tt
    (mkState (Error msg (loggerSt s)) (world s) (signals s)
             (record (Log ERROR msg) s)).

(** [c.Close()] for the resource at index [i] *)
Definition callClose (i : nat) (c : Closeable W) : M (option error) :=
  fun s =>
    let (err, w) := Close c (world s) in
    Returned err
      (mkState (loggerSt s) w (signals s) (record (CloseCall i err) s)).

(** [c <- v] *)
Definition chanSend {A : Type} (c : chan A) (v : A) : M (chan A) :=
  fun s =>
    match send c v with
    | Sent c' => Returned c' s
    | SendBlocks => Blocked s
    | SendPanics => Panicked s
    end.

(** [<-c] on a [chan bool], whose zero value is [false] *)
Definition chanRecv (c : chan bool) : M (bool * chan bool) :=
  fun s =>
    match recvOr false c with
    | Some r => Returned r s
    | None => Blocked s
    end.

(** [close(c)] *)
Definition chanClose {A : Type} (c : chan A) : M (chan A) :=
  fun s =>
    match close c with
    | Some c' => Returned c' s
    | None => Panicked s
    end.

(** [<-osSignals], with the runtime delivering to the handler [h] that
    [signal.Notify] registered for the channel *)
Definition recvSignal (h : handler) (osSignals : chan Signal)
  : M (option Signal) :=
  fun s =>
    match await h osSignals (signals s) with
    | Woken osSignal rest =>
        Returned osSignal
          (mkState (loggerSt s) (world s) rest (trace s))
    | Starved => Blocked (mkState (loggerSt s) (world s) [] (trace s))
    | Crashed => Panicked s
    end.

(** [os.Exit(code)] *)
Definition osExit {A : Type} (code : Z) : M A := fun s => Exited code s.

(** The goroutine of [do] (lines 37-41). *)
Definition watcher (h : handler) (osSignals : chan Signal)
    (terminate : chan bool) : M (chan bool) :=
  osSignal <- recvSignal h osSignals ;;
  callWarn ("system call receipt -> " ++ formatV osSignal) ;;
  chanSend terminate true.

(** [for i, c := range closeable { ... }] (lines 44-49), from index [i]. *)
Fixpoint closeLoop (i : nat) (closeable : list (Closeable W)) : M unit :=
  match closeable with
  | [] => ret tt
  | c :: rest =>
      callInfo ("trying to close resource " ++ itoa (Z.of_nat i)) ;;
      err <- callClose i c ;;
      match err with
      | Some e => callError ("error on close resource: " ++ e)
      | None => ret tt
      end ;;
      closeLoop (S i) rest
  end.

(** The body of [do] with the registered signals as a parameter, to
    compare registrations. *)
Definition doNotifying (sig : list Signal) (closeable : list (Closeable W))
  : M unit :=
  let osSignals := make 1 in
  let terminate := make 1 in
  let h := Notify sig in
  terminate <- watcher h osSignals terminate ;;
  _ <- chanRecv terminate ;;
  callInfo "closing resources..." ;;
  closeLoop 0 closeable ;;
  callWarn "system was terminated by system call".

(** [func do(logger Logger, closeable ...Closeable)].  The goroutine is
    started while [terminate] is empty and the next statement of [do] is
    [<-terminate], so [do] goes no further until the goroutine has sent:
    the goroutine runs first, to its end ([interleavings_agree] below
    checks this against every interleaving). *)
Definition do (closeable : list (Closeable W)) : M unit :=
  let osSignals := make 1 in
  let terminate := make 1 in
  let h := Notify [SIGTERM; SIGQUIT; SIGQUIT; SIGINT] in
  terminate <- watcher h osSignals terminate ;;
  _ <- chanRecv terminate ;;
  callInfo "closing resources..." ;;
  closeLoop 0 closeable ;;
  callWarn "system was terminated by system call".

(** [func Handle(logger Logger, closeable ...Closeable) <-chan bool].
    The deferred [close(terminated)] runs as [Handle] returns. *)
Definition Handle (closeable : list (Closeable W)) : M (chan bool) :=
  do closeable ;;
  let terminated := make 1 in
  terminated <- chanSend terminated true ;;
  chanClose terminated.

(** [func HandleAndTerminate(logger Logger, closeable ...Closeable)] *)
Definition HandleAndTerminate (closeable : list (Closeable W)) : M unit :=
  do closeable ;;
  osExit 0.

End Handler.

Arguments State : clear implicits.
Arguments Outcome : clear implicits.
Arguments Returned {L W A} _ _.
Arguments Blocked {L W A} _.
Arguments Exited {L W A} _ _.
Arguments Panicked {L W A} _.

(* ================================================================= *)
(** ** Reading a run *)

Import Chan OsSignal.

(** The signals [do] registers for: interrupt, terminate, quit. *)
Definition isTermination (sig : Signal) : bool :=
  ((sig =? SIGINT) || (sig =? SIGTERM) || (sig =? SIGQUIT))%Z.

(** The first termination signal among the delivered ones, with the
    signals delivered after it. *)
Fixpoint arrival (sigs : list Signal) : option (Signal * list Signal) :=
  match sigs with
  | [] => None
  | sig :: rest => if isTermination sig then Some (sig, rest) else arrival rest
  end.

(** The messages, by their text. *)
Definition receiptMsg (sig : Signal) : string :=
  "system call receipt -> " ++ signalName sig.
Definition closingMsg : string := "closing resources...".
Definition tryingMsg (i : nat) : string :=
  "trying to close resource " ++ itoa (Z.of_nat i).
Definition closeErrorMsg (e : error) : string :=
  "error on close resource: " ++ e.
Definition terminatedMsg : string := "system was terminated by system call".

Section Reading.

Context {L W : Type} `{Logger L}.

(** Closing the resources one after the other, each on the state the one
    before left: what each [Close] returns, and the state at the end. *)
Fixpoint closeErrs (closeable : list (Closeable W)) (w : W)
  : list (option error) :=
  match closeable with
  | [] => []
  | c :: rest => fst (Close c w) :: closeErrs rest (snd (Close c w))
  end.

Fixpoint closeWorld (closeable : list (Closeable W)) (w : W) : W :=
  match closeable with
  | [] => w
  | c :: rest => closeWorld rest (snd (Close c w))
  end.

(** The descriptions of the failures among the results of [Close]. *)
Definition failureTexts (errs : list (option error)) : list error :=
  flat_map (fun err => match err with Some e => [e] | None => [] end) errs.

(** How many resources report a failure when closed in order from [w]. *)
Definition failures (closeable : list (Closeable W)) (w : W) : nat :=
  List.length (failureTexts (closeErrs closeable w)).

(** The calls one iteration makes for the resource at index [i]. *)
Definition iterationTrace (i : nat) (err : option error) : list Event :=
  [Log INFO (tryingMsg i); CloseCall i err] ++
  match err with
  | Some e => [Log ERROR (closeErrorMsg e)]
  | None => []
  end.

Fixpoint loopTrace (i : nat) (errs : list (option error)) : list Event :=
  match errs with
  | [] => []
  | err :: rest => iterationTrace i err ++ loopTrace (S i) rest
  end.

(** The calls of one whole run woken by [sig]. *)
Definition runTrace (sig : Signal) (errs : list (option error))
  : list Event :=
  [Log WARN (receiptMsg sig); Log INFO closingMsg] ++
  loopTrace 0 errs ++
  [Log WARN terminatedMsg].

(** The logger after the logging calls of a trace. *)
Definition replay (tr : list Event) (l : L) : L :=
  fold_left
    (fun l e =>
       match e with
       | Log INFO msg => Info msg l
       | Log WARN msg => Warn msg l
       | Log ERROR msg => Error msg l
       | CloseCall _ _ => l
       end) tr l.

(** The state a run woken by [sig] ends in. *)
Definition finished (s : State L W) (sig : Signal) (rest : list Signal)
    (closeable : list (Closeable W)) : State L W :=
  let tr := runTrace sig (closeErrs closeable (world s)) in
  mkState (replay tr (loggerSt s)) (closeWorld closeable (world s)) rest
          (trace s ++ tr).

(** The state of a run that no termination signal ever wakes. *)
Definition starved (s : State L W) : State L W :=
  mkState (loggerSt s) (world s) [] (trace s).

End Reading.

Definition Level_eqb (a b : Level) : bool :=
  match a, b with
  | INFO, INFO | WARN, WARN | ERROR, ERROR => true
  | _, _ => false
  end.

(** The messages logged at one level, in order. *)
Definition messages (lv : Level) (tr : list Event) : list string :=
  flat_map
    (fun e =>
       match e with
       | Log lv' msg => if Level_eqb lv lv' then [msg] else []
       | CloseCall _ _ => []
       end) tr.

(** The indices [Close] was invoked on, in order. *)
Definition closeCalls (tr : list Event) : list nat :=
  flat_map
    (fun e =>
       match e with
       | CloseCall i _ => [i]
       | Log _ _ => []
       end) tr.

(** The log lines alone, in order. *)
Definition logLines (tr : list Event) : list (Level * string) :=
  flat_map
    (fun e =>
       match e with
       | Log lv msg => [(lv, msg)]
       | CloseCall _ _ => []
       end) tr.

Definition occurrences (msg : string) (msgs : list string) : nat :=
  count_occ string_dec msgs msg.

(** The channel [Handle] hands back. *)
Definition completed : chan bool := mkChan [true] 1 true.

(** The value of receive number [n] (from 1) on a [chan bool]. *)
Definition receive (c : chan bool) (n : nat) : option bool :=
  nthRecv false c (n - 1).

(** *** Loggers and resources to run the package on *)

(** A logger that keeps the lines it is given. *)
#[export] Instance keepLines : Logger (list (Level * string)) := {|
  Info msg l := (l ++ [(INFO, msg)])%list;
  Warn msg l := (l ++ [(WARN, msg)])%list;
  Error msg l := (l ++ [(ERROR, msg)])%list
|}.

(** A resource whose [Close] counts the calls in the state and returns
    [err]. *)
Definition resource (err : option error) : Closeable nat :=
  mkCloseable (fun w => (err, S w)).

Definition start (sigs : list Signal) : State (list (Level * string)) nat :=
  mkState [] 0%nat sigs [].

(** The scenario of two resources, the second failing with "disk full",
    woken by an interrupt. *)
Definition scenario : list (Closeable nat) :=
  [resource None; resource (Some "disk full")].

(* ================================================================= *)
(** ** The two goroutines of [do], one step at a time *)

(** [do] above lets its goroutine run to the end before it goes on.  The
    configurations below keep the two apart, from the [go] statement of
    line 37 to the statement after [<-terminate] of line 42, with the
    runtime delivering signals at any moment in between. *)

(** Where [do] itself stands. *)
Inductive MainAt : Type :=
| AtGo
| AtRecvTerminate
| AtClosing.

(** Where the goroutine of lines 37-41 stands. *)
Inductive WatcherAt : Type :=
| NotStarted
| AtRecvSignal
| AtWarn (osSignal : option Signal)
| AtSend
| Ended.

Record Config : Type := mkConfig {
  mainAt : MainAt;
  watcherAt : WatcherAt;
  osSignals : chan Signal;
  terminate : chan bool;
  undelivered : list Signal;
  logged : list Event
}.

Inductive step (h : handler) : Config -> Config -> Prop :=
| step_deliver m w os os' t sig rest tr :
    process h sig os = Some os' ->
    step h (mkConfig m w os t (sig :: rest) tr) (mkConfig m w os' t rest tr)
| step_go os t sigs tr :
    step h (mkConfig AtGo NotStarted os t sigs tr)
           (mkConfig AtRecvTerminate AtRecvSignal os t sigs tr)
| step_recv_signal m os os' t sigs tr v :
    recv os = Received v os' ->
    step h (mkConfig m AtRecvSignal os t sigs tr)
           (mkConfig m (AtWarn (Some v)) os' t sigs tr)
| step_recv_closed m os t sigs tr :
    recv os = RecvClosed ->
    step h (mkConfig m AtRecvSignal os t sigs tr)
           (mkConfig m (AtWarn None) os t sigs tr)
| step_warn m v os t sigs tr :
    step h (mkConfig m (AtWarn v) os t sigs tr)
           (mkConfig m AtSend os t sigs
              (tr ++ [Log WARN ("system call receipt -> " ++ formatV v)])%list)
| step_send m os t t' sigs tr :
    send t true = Sent t' ->
    step h (mkConfig m AtSend os t sigs tr) (mkConfig m Ended os t' sigs tr)
| step_recv_terminate w os t t' v sigs tr :
    recvOr false t = Some (v, t') ->
    step h (mkConfig AtRecvTerminate w os t sigs tr)
           (mkConfig AtClosing w os t' sigs tr).

(** Zero or more steps. *)
Inductive steps (h : handler) : Config -> Config -> Prop :=
| steps_none c : steps h c c
| steps_more c1 c2 c3 : steps h c1 c2 -> step h c2 c3 -> steps h c1 c3.

(** [do] after [signal.Notify], with [sigs] still to be delivered and the
    calls [tr] made before. *)
Definition initial (sigs : list Signal) (tr : list Event) : Config :=
  mkConfig AtGo NotStarted (make 1) (make 1) sigs tr.

(** What holds of every configuration reached from [initial sigs tr0]. *)
Definition undisturbed (tr0 : list Event) (delivered : list Signal)
    (c : Config) : Prop :=
  buf (osSignals c) =
    match arrival delivered with
    | Some (sig, _) => [sig]
    | None => []
    end /\
  buf (terminate c) = [] /\
  logged c = tr0.

Definition wokenBy (sig : Signal) (delivered : list Signal) : Prop :=
  exists rest, arrival delivered = Some (sig, rest).

Definition reached (sigs : list Signal) (tr0 : list Event) (c : Config)
  : Prop :=
  cap (osSignals c) = 1%nat /\ closed (osSignals c) = false /\
  cap (terminate c) = 1%nat /\ closed (terminate c) = false /\
  exists delivered : list Signal,
    sigs = (delivered ++ undelivered c)%list /\
    match watcherAt c with
    | NotStarted => mainAt c = AtGo /\ undisturbed tr0 delivered c
    | AtRecvSignal => mainAt c = AtRecvTerminate /\ undisturbed tr0 delivered c
    | AtWarn v =>
        mainAt c = AtRecvTerminate /\
        (exists sig, v = Some sig /\ wokenBy sig delivered) /\
        buf (terminate c) = [] /\
        logged c = tr0
    | AtSend =>
        mainAt c = AtRecvTerminate /\
        buf (terminate c) = [] /\
        exists sig,
          wokenBy sig delivered /\
          logged c = (tr0 ++ [Log WARN (receiptMsg sig)])%list
    | Ended =>
        ((mainAt c = AtRecvTerminate /\ buf (terminate c) = [true]) \/
         (mainAt c = AtClosing /\ buf (terminate c) = [])) /\
        exists sig,
          wokenBy sig delivered /\
          logged c = (tr0 ++ [Log WARN (receiptMsg sig)])%list
    end.

(* ================================================================= *)
(** ** The registration and the wait *)

Lemma testbit_registered (n : Z) :
  Z.testbit 32780 n = isTermination n.
Proof.
  unfold isTermination, SIGINT, SIGTERM, SIGQUIT.
  destruct (Z.ltb_spec n 0) as [Hneg | Hpos].
  - rewrite Z.testbit_neg_r by assumption.
    symmetry. repeat (apply orb_false_intro); apply Z.eqb_neq; lia.
  - destruct (Z.ltb_spec n 16) as [Hlow | Hhigh].
    + rewrite <- (Z2Nat.id n) by assumption.
    assert (Hk : (Z.to_nat n < 16)%nat) by lia.
    revert Hk. generalize (Z.to_nat n) as k. intros k Hk.
    do 16 (destruct k as [ | k ]; [ reflexivity | ]). lia.
  + rewrite Z.bits_above_log2; [ | lia | simpl; lia ].
      symmetry. repeat (apply orb_false_intro); apply Z.eqb_neq; lia.
Qed.

Lemma Notify_do :
  Notify [SIGTERM; SIGQUIT; SIGQUIT; SIGINT] = mkHandler 32780.
Proof. reflexivity. Qed.

Lemma want_do (n : Z) :
  want (Notify [SIGTERM; SIGQUIT; SIGQUIT; SIGINT]) n = isTermination n.
Proof. rewrite Notify_do. apply testbit_registered. Qed.

Lemma isTermination_signum (sig : Signal) :
  isTermination sig = true -> signum sig = sig.
Proof.
  unfold isTermination, SIGINT, SIGTERM, SIGQUIT, signum, numSig. intros Hsig.
  apply orb_true_iff in Hsig as [Hsig | Hsig];
    [ apply orb_true_iff in Hsig as [Hsig | Hsig] | ];
    apply Z.eqb_eq in Hsig; subst sig; reflexivity.
Qed.

Lemma signum_cases (sig : Signal) :
  signum sig = sig \/ (signum sig = (-1)%Z /\ isTermination sig = false).
Proof.
  unfold signum, numSig.
  destruct ((sig <? 0)%Z || (65 <=? sig)%Z) eqn:Hout; [ right | left; reflexivity ].
  split; [ reflexivity | ].
  unfold isTermination, SIGINT, SIGTERM, SIGQUIT.
  apply orb_true_iff in Hout as [Hout | Hout];
    [ apply Z.ltb_lt in Hout | apply Z.leb_le in Hout ];
    repeat (apply orb_false_intro); apply Z.eqb_neq; lia.
Qed.

Lemma process_do_any (sig : Signal) (os : chan Signal) :
  process (Notify [SIGTERM; SIGQUIT; SIGQUIT; SIGINT]) sig os =
  if isTermination sig then trySend os sig else Some os.
Proof.
  unfold process.
  destruct (signum_cases sig) as [Hnum | [Hnum Hterm]]; rewrite Hnum.
  - destruct (Z.ltb_spec sig 0) as [Hneg | Hpos].
    + rewrite <- testbit_registered, Z.testbit_neg_r by assumption.
      reflexivity.
    + rewrite want_do. reflexivity.
  - rewrite Hterm. reflexivity.
Qed.

(** What the runtime does with one delivered signal while [osSignals] is
    still empty: a termination signal is queued, any other is not. *)
Lemma process_do (sig : Signal) :
  process (Notify [SIGTERM; SIGQUIT; SIGQUIT; SIGINT]) sig (make 1) =
  Some (if isTermination sig then mkChan [sig] 1 false else make 1).
Proof.
  rewrite process_do_any. destruct (isTermination sig); reflexivity.
Qed.

(** The goroutine's receive: it is woken by the first termination signal
    delivered, and waits forever when there is none. *)
Lemma await_do (sigs : list Signal) :
  await (Notify [SIGTERM; SIGQUIT; SIGQUIT; SIGINT]) (make 1) sigs =
  match arrival sigs with
  | Some (sig, rest) => Woken (Some sig) rest
  | None => Starved
  end.
Proof.
  induction sigs as [ | sig rest IH ]; [ reflexivity | ].
  cbn [await arrival]. change (recv (make 1)) with (@RecvBlocks Signal).
  cbv iota. rewrite process_do.
  destruct (isTermination sig).
  - destruct rest; reflexivity.
  - exact IH.
Qed.

(* ================================================================= *)
(** ** The run in closed form *)

Section Runs.

Context {L W : Type} `{Logger L}.

Implicit Types (s : State L W) (closeable : list (Closeable W)).

Lemma replay_app (tr1 tr2 : list Event) (l : L) :
  replay (tr1 ++ tr2) l = replay tr2 (replay tr1 l).
Proof. apply fold_left_app. Qed.

(** The loop never stops early: it returns after the calls of
    [loopTrace], whatever the resources return. *)
Lemma closeLoop_run closeable : forall i s,
  closeLoop i closeable s =
  Returned tt
    (mkState (replay (loopTrace i (closeErrs closeable (world s)))
                     (loggerSt s))
             (closeWorld closeable (world s))
             (signals s)
             (trace s ++ loopTrace i (closeErrs closeable (world s)))).
Proof.
  induction closeable as [ | c rest IH ]; intros i s.
  - cbn. rewrite app_nil_r. destruct s; reflexivity.
  - cbn [closeLoop closeErrs closeWorld loopTrace].
    unfold bind at 1. cbn [callInfo].
    unfold bind at 1. unfold callClose at 1. cbn [world loggerSt signals trace].
    destruct (Close c (world s)) as [err w] eqn:Hclose. cbn [fst snd].
    unfold bind at 1.
    destruct err as [ e | ]; cbn [callError ret];
      rewrite IH; cbn [world loggerSt signals trace];
      unfold record, iterationTrace; cbn [trace];
      rewrite ?replay_app, <- ?app_assoc; reflexivity.
Qed.

(** [do]: woken by the first termination signal delivered, it makes the
    calls of [runTrace] and returns; with no such signal it waits for
    ever, having called nothing. *)
Lemma do_run closeable s :
  do closeable s =
  match arrival (signals s) with
  | Some (sig, rest) => Returned tt (finished s sig rest closeable)
  | None => Blocked (starved s)
  end.
Proof.
  unfold do, watcher.
  unfold bind at 1. unfold bind at 1. unfold recvSignal.
  rewrite await_do.
  destruct (arrival (signals s)) as [ [sig rest] | ]; [ | reflexivity ].
  unfold bind at 1. cbn [callWarn formatV].
  cbn [chanSend send make closed buf cap List.length Nat.ltb Nat.leb].
  unfold bind at 1. cbn [chanRecv recvOr recv buf app].
  unfold bind at 1. cbn [callInfo].
  unfold bind at 1. rewrite closeLoop_run.
  unfold callWarn, finished, runTrace, record, receiptMsg, closingMsg.
  cbn [world loggerSt signals trace].
  f_equal. f_equal.
  - rewrite !replay_app. reflexivity.
  - rewrite <- !app_assoc. reflexivity.
Qed.

Lemma doNotifying_do closeable s :
  doNotifying [SIGTERM; SIGQUIT; SIGQUIT; SIGINT] closeable s =
  do closeable s.
Proof. reflexivity. Qed.

Lemma Handle_run closeable s :
  Handle closeable s =
  match arrival (signals s) with
  | Some (sig, rest) => Returned completed (finished s sig rest closeable)
  | None => Blocked (starved s)
  end.
Proof.
  unfold Handle. unfold bind at 1. rewrite do_run.
  destruct (arrival (signals s)) as [ [sig rest] | ]; reflexivity.
Qed.

Lemma HandleAndTerminate_run closeable s :
  HandleAndTerminate closeable s =
  match arrival (signals s) with
  | Some (sig, rest) => Exited 0 (finished s sig rest closeable)
  | None => Blocked (starved s)
  end.
Proof.
  unfold HandleAndTerminate. unfold bind at 1. rewrite do_run.
  destruct (arrival (signals s)) as [ [sig rest] | ]; reflexivity.
Qed.

End Runs.

(* ================================================================= *)
(** ** Every interleaving agrees with [do] *)

Lemma arrival_app_some (d l : list Signal) (sig : Signal) (rest : list Signal) :
  arrival d = Some (sig, rest) ->
  arrival (d ++ l) = Some (sig, (rest ++ l)%list).
Proof.
  induction d as [ | x d IH ]; cbn; [ discriminate | ].
  destruct (isTermination x); [ | exact IH ].
  intros Heq. injection Heq as -> ->. reflexivity.
Qed.

Lemma arrival_app_none (d l : list Signal) :
  arrival d = None -> arrival (d ++ l) = arrival l.
Proof.
  induction d as [ | x d IH ]; cbn; [ reflexivity | ].
  destruct (isTermination x); [ discriminate | exact IH ].
Qed.

Lemma wokenBy_app (sig : Signal) (d l : list Signal) :
  wokenBy sig d -> wokenBy sig (d ++ l).
Proof.
  intros [rest Harr]. exists (rest ++ l)%list.
  apply arrival_app_some. exact Harr.
Qed.

(** One delivery to the signal channel of [do]: the channel keeps its
    capacity, stays open, and while nothing was received from it, it holds
    the first termination signal delivered so far and nothing else. *)
Lemma deliver_osSignals (sig : Signal) (os os' : chan Signal) :
  cap os = 1%nat -> closed os = false ->
  process (Notify [SIGTERM; SIGQUIT; SIGQUIT; SIGINT]) sig os = Some os' ->
  cap os' = 1%nat /\ closed os' = false /\
  forall delivered : list Signal,
    buf os =
      match arrival delivered with Some (x, _) => [x] | None => [] end ->
    buf os' =
      match arrival (delivered ++ [sig]) with
      | Some (x, _) => [x]
      | None => []
      end.
Proof.
  intros Hcap Hopen. rewrite process_do_any.
  destruct (isTermination sig) eqn:Hterm.
  - unfold trySend, send. rewrite Hopen, Hcap.
    destruct (buf os) as [ | x queued ] eqn:Hbuf; cbn.
    + intros Heq. injection Heq as <-. cbn.
      repeat apply conj;
      [ first [ exact Hcap | reflexivity ]
      | first [ exact Hopen | reflexivity ] | ].
      intros delivered Hheld.
      destruct (arrival delivered) as [ [x r] | ] eqn:Harr; [ discriminate | ].
      rewrite (arrival_app_none _ _ Harr). cbn. rewrite Hterm. reflexivity.
    + intros Heq. injection Heq as <-.
      repeat apply conj;
      [ first [ exact Hcap | reflexivity ]
      | first [ exact Hopen | reflexivity ] | ].
      intros delivered Hheld.
      destruct (arrival delivered) as [ [y r] | ] eqn:Harr; [ | discriminate ].
      rewrite (arrival_app_some _ [sig] _ _ Harr), Hbuf. exact Hheld.
  - intros Heq. injection Heq as <-.
    repeat apply conj;
      [ first [ exact Hcap | reflexivity ]
      | first [ exact Hopen | reflexivity ] | ].
    intros delivered Hheld.
    destruct (arrival delivered) as [ [y r] | ] eqn:Harr.
    + rewrite (arrival_app_some _ [sig] _ _ Harr). exact Hheld.
    + rewrite (arrival_app_none _ _ Harr). cbn. rewrite Hterm. exact Hheld.
Qed.

Lemma reached_initial (sigs : list Signal) (tr0 : list Event) :
  reached sigs tr0 (initial sigs tr0).
Proof.
  unfold reached, initial. cbn. repeat apply conj; try reflexivity.
  exists []. repeat split.
Qed.

Lemma reached_step (sigs : list Signal) (tr0 : list Event) (c c' : Config) :
  reached sigs tr0 c ->
  step (Notify [SIGTERM; SIGQUIT; SIGQUIT; SIGINT]) c c' ->
  reached sigs tr0 c'.
Proof.
  intros Hreach Hstep.
  destruct Hstep
    as [ m w os os' t sig rest tr Hproc
       | os t und tr
       | m os os' t und tr v Hrecv
       | m os t und tr Hrecv
       | m v os t und tr
       | m os t t' und tr Hsend
       | w os t t' v und tr Hrecv ];
    unfold reached, undisturbed in *;
    cbn [mainAt watcherAt osSignals terminate undelivered logged] in *;
    destruct Hreach
      as (Hcap & Hopen & Htcap & Htopen & delivered & Hsigs & Hat).
  - (* the runtime delivers [sig] *)
    destruct (deliver_osSignals _ _ _ Hcap Hopen Hproc)
      as (Hcap' & Hopen' & Hheld).
    repeat apply conj; try assumption.
    exists (delivered ++ [sig])%list.
    split; [ rewrite <- app_assoc; exact Hsigs | ].
    destruct w as [ | | v | | ].
    + destruct Hat as (Hm & Hbuf & Ht & Hlog).
      repeat apply conj; try assumption. apply Hheld, Hbuf.
    + destruct Hat as (Hm & Hbuf & Ht & Hlog).
      repeat apply conj; try assumption. apply Hheld, Hbuf.
    + destruct Hat as (Hm & (x & Hv & Hwoken) & Ht & Hlog).
      repeat apply conj; try assumption.
      exists x. split; [ exact Hv | apply wokenBy_app, Hwoken ].
    + destruct Hat as (Hm & Ht & x & Hwoken & Hlog).
      repeat apply conj; try assumption.
      exists x. split; [ apply wokenBy_app, Hwoken | exact Hlog ].
    + destruct Hat as (Hmt & x & Hwoken & Hlog).
      split; [ exact Hmt | ].
      exists x. split; [ apply wokenBy_app, Hwoken | exact Hlog ].
  - (* go *)
    repeat apply conj; try assumption.
    exists delivered. split; [ exact Hsigs | ].
    destruct Hat as (_ & Hrest). split; [ reflexivity | exact Hrest ].
  - (* the goroutine receives a signal *)
    destruct Hat as (Hm & Hbuf & Ht & Hlog).
    unfold recv in Hrecv.
    destruct (buf os) as [ | x queued ] eqn:Hqueue;
      [ rewrite Hopen in Hrecv; discriminate | ].
    injection Hrecv as <- <-. cbn [cap closed].
    repeat apply conj; try assumption.
    exists delivered. split; [ exact Hsigs | ].
    repeat apply conj; try assumption.
    exists x. split; [ reflexivity | ].
    destruct (arrival delivered) as [ [y r] | ] eqn:Harr; [ | discriminate ].
    injection Hbuf as -> _. exists r. exact Harr.
  - (* the signal channel is never closed *)
    unfold recv in Hrecv. rewrite Hopen in Hrecv.
    destruct (buf os); discriminate.
  - (* the warning *)
    repeat apply conj; try assumption.
    exists delivered. split; [ exact Hsigs | ].
    destruct Hat as (Hm & (x & -> & Hwoken) & Ht & Hlog).
    repeat apply conj; try assumption.
    exists x. split; [ exact Hwoken | ]. rewrite Hlog. reflexivity.
  - (* the goroutine sends on [terminate] *)
    destruct Hat as (Hm & Ht & x & Hwoken & Hlog).
    unfold send in Hsend. rewrite Htopen, Htcap, Ht in Hsend.
    injection Hsend as <-. cbn [cap closed buf app].
    repeat apply conj; try assumption; try reflexivity.
    exists delivered. split; [ exact Hsigs | ].
    split; [ left; split; [ exact Hm | reflexivity ] | ].
    exists x. split; assumption.
  - (* [do] receives from [terminate] *)
    unfold recvOr, recv in Hrecv.
    destruct w as [ | | x | | ].
    + destruct Hat as (Hm & _). discriminate Hm.
    + destruct Hat as (_ & _ & Ht & _).
      rewrite Ht, Htopen in Hrecv. discriminate.
    + destruct Hat as (_ & _ & Ht & _).
      rewrite Ht, Htopen in Hrecv. discriminate.
    + destruct Hat as (_ & Ht & _).
      rewrite Ht, Htopen in Hrecv. discriminate.
    + destruct Hat as ([(_ & Ht) | (Hm & _)] & x & Hwoken & Hlog);
        [ | discriminate Hm ].
      rewrite Ht in Hrecv. injection Hrecv as _ <-. cbn [cap closed buf].
      repeat apply conj; try assumption.
      exists delivered. split; [ exact Hsigs | ].
      split; [ right; split; reflexivity | ].
      exists x. split; assumption.
Qed.

Lemma reached_steps (sigs : list Signal) (tr0 : list Event) (c : Config) :
  steps (Notify [SIGTERM; SIGQUIT; SIGQUIT; SIGINT]) (initial sigs tr0) c ->
  reached sigs tr0 c.
Proof.
  intros Hsteps. remember (initial sigs tr0) as c0 eqn:Hc0.
  induction Hsteps as [ c | c1 c2 c3 _ IH Hstep ].
  - subst c. apply reached_initial.
  - apply (reached_step _ _ c2); [ exact (IH Hc0) | exact Hstep ].
Qed.

(** However the two goroutines and the deliveries interleave, once [do]
    is past [<-terminate] the goroutine has ended, exactly one call was
    made, the receipt warning naming the first termination signal
    delivered, and the signals still to be delivered are among those that
    followed it: what [do] above computes. *)
Theorem interleavings_agree (sigs : list Signal) (tr0 : list Event)
    (c : Config) :
  steps (Notify [SIGTERM; SIGQUIT; SIGQUIT; SIGINT]) (initial sigs tr0) c ->
  mainAt c = AtClosing ->
  exists (sig : Signal) (rest earlier : list Signal),
    arrival sigs = Some (sig, rest) /\
    rest = (earlier ++ undelivered c)%list /\
    watcherAt c = Ended /\
    logged c = (tr0 ++ [Log WARN (receiptMsg sig)])%list.
Proof.
  intros Hsteps Hmain.
  destruct (reached_steps _ _ _ Hsteps)
    as (_ & _ & _ & _ & delivered & Hsigs & Hat).
  destruct (watcherAt c) as [ | | v | | ].
  - destruct Hat as (Hm & _). congruence.
  - destruct Hat as (Hm & _). congruence.
  - destruct Hat as (Hm & _). congruence.
  - destruct Hat as (Hm & _). congruence.
  - destruct Hat as (_ & sig & (earlier & Harr) & Hlog).
    exists sig, (earlier ++ undelivered c)%list, earlier.
    repeat apply conj; try reflexivity; try assumption.
    rewrite Hsigs. apply arrival_app_some, Harr.
Qed.

Lemma steps_trans (h : handler) (c1 c2 c3 : Config) :
  steps h c1 c2 -> steps h c2 c3 -> steps h c1 c3.
Proof.
  intros H12 H23. induction H23 as [ c | c c' c'' _ IH Hstep ].
  - exact H12.
  - eapply steps_more; [ exact (IH H12) | exact Hstep ].
Qed.

Lemma steps_one (h : handler) (c1 c2 : Config) :
  step h c1 c2 -> steps h c1 c2.
Proof. intros Hstep. eapply steps_more; [ apply steps_none | exact Hstep ]. Qed.

(** The deliveries up to the first termination signal, the goroutine
    waiting at [<-osSignals]. *)
Lemma deliveries_until_arrival (sigs : list Signal) (tr0 : list Event)
    (sig : Signal) (rest : list Signal) :
  arrival sigs = Some (sig, rest) ->
  steps (Notify [SIGTERM; SIGQUIT; SIGQUIT; SIGINT])
    (mkConfig AtRecvTerminate AtRecvSignal (make 1) (make 1) sigs tr0)
    (mkConfig AtRecvTerminate AtRecvSignal (mkChan [sig] 1 false) (make 1)
       rest tr0).
Proof.
  induction sigs as [ | x sigs IH ]; [ discriminate | ].
  cbn [arrival]. destruct (isTermination x) eqn:Hterm; intros Harr.
  - injection Harr as -> ->.
    apply steps_one, step_deliver. rewrite process_do_any, Hterm. reflexivity.
  - eapply steps_trans; [ | exact (IH Harr) ].
    apply steps_one, step_deliver. rewrite process_do_any, Hterm. reflexivity.
Qed.

(** And some interleaving does get [do] past [<-terminate] when a
    termination signal is delivered. *)
Theorem interleaving_exists (sigs : list Signal) (tr0 : list Event)
    (sig : Signal) (rest : list Signal) :
  arrival sigs = Some (sig, rest) ->
  steps (Notify [SIGTERM; SIGQUIT; SIGQUIT; SIGINT]) (initial sigs tr0)
    (mkConfig AtClosing Ended (mkChan [] 1 false) (mkChan [] 1 false) rest
       (tr0 ++ [Log WARN (receiptMsg sig)])).
Proof.
  intros Harr.
  eapply steps_trans; [ apply steps_one, step_go | ].
  eapply steps_trans; [ exact (deliveries_until_arrival _ tr0 _ _ Harr) | ].
  eapply steps_trans;
    [ apply steps_one, (step_recv_signal _ _ _ (mkChan [] 1 false));
      reflexivity | ].
  eapply steps_trans; [ apply steps_one, step_warn | ].
  eapply steps_trans;
    [ apply steps_one, (step_send _ _ _ _ (mkChan [true] 1 false));
      reflexivity | ].
  apply steps_one, (step_recv_terminate _ _ _ _ _ true). reflexivity.
Qed.

(** X9.  [do] and the interleavings: in whatever order the steps were taken,
    the calls made when [do] is past [<-terminate] are the first calls of
    the run [do] computes, which goes on with "closing resources...". *)
Theorem do_agrees_with_interleavings {L W : Type} `{Logger L}
    (closeable : list (Closeable W)) (s : State L W) (c : Config) :
  steps (Notify [SIGTERM; SIGQUIT; SIGQUIT; SIGINT])
    (initial (signals s) (trace s)) c ->
  mainAt c = AtClosing ->
  exists s' : State L W,
    do closeable s = Returned tt s' /\
    trace s' =
      (logged c ++
       Log INFO closingMsg ::
       loopTrace 0 (closeErrs closeable (world s)) ++
       [Log WARN terminatedMsg])%list.
Proof.
  intros Hsteps Hmain.
  destruct (interleavings_agree _ _ _ Hsteps Hmain)
    as (sig & rest & earlier & Harr & _ & _ & Hlog).
  exists (finished s sig rest closeable).
  rewrite do_run, Harr, Hlog. split; [ reflexivity | ].
  cbn [finished trace]. unfold runTrace. rewrite <- app_assoc. reflexivity.
Qed.

(* ================================================================= *)
(** ** Reading the trace of a run *)

Lemma messages_app (lv : Level) (tr1 tr2 : list Event) :
  messages lv (tr1 ++ tr2) = (messages lv tr1 ++ messages lv tr2)%list.
Proof. apply flat_map_app. Qed.

Lemma closeCalls_app (tr1 tr2 : list Event) :
  closeCalls (tr1 ++ tr2) = (closeCalls tr1 ++ closeCalls tr2)%list.
Proof. apply flat_map_app. Qed.

Lemma logLines_app (tr1 tr2 : list Event) :
  logLines (tr1 ++ tr2) = (logLines tr1 ++ logLines tr2)%list.
Proof. apply flat_map_app. Qed.

Lemma closeErrs_length {W : Type} (closeable : list (Closeable W)) :
  forall w, List.length (closeErrs closeable w) = List.length closeable.
Proof.
  induction closeable as [ | c rest IH ]; intros w; cbn; [ | rewrite IH ];
    reflexivity.
Qed.

Lemma messages_INFO_loop (errs : list (option error)) : forall i,
  messages INFO (loopTrace i errs) = map tryingMsg (seq i (List.length errs)).
Proof.
  induction errs as [ | err rest IH ]; intros i; [ reflexivity | ].
  cbn [loopTrace]. rewrite messages_app, IH.
  destruct err; reflexivity.
Qed.

Lemma messages_WARN_loop (errs : list (option error)) : forall i,
  messages WARN (loopTrace i errs) = [].
Proof.
  induction errs as [ | err rest IH ]; intros i; [ reflexivity | ].
  cbn [loopTrace]. rewrite messages_app, IH.
  destruct err; reflexivity.
Qed.

Lemma messages_ERROR_loop (errs : list (option error)) : forall i,
  messages ERROR (loopTrace i errs) = map closeErrorMsg (failureTexts errs).
Proof.
  induction errs as [ | err rest IH ]; intros i; [ reflexivity | ].
  cbn [loopTrace]. rewrite messages_app, IH.
  destruct err; reflexivity.
Qed.

Lemma closeCalls_loop (errs : list (option error)) : forall i,
  closeCalls (loopTrace i errs) = seq i (List.length errs).
Proof.
  induction errs as [ | err rest IH ]; intros i; [ reflexivity | ].
  cbn [loopTrace]. rewrite closeCalls_app, IH.
  destruct err; reflexivity.
Qed.

Lemma messages_INFO_run (sig : Signal) (errs : list (option error)) :
  messages INFO (runTrace sig errs) =
  closingMsg :: map tryingMsg (seq 0 (List.length errs)).
Proof.
  unfold runTrace. rewrite !messages_app, messages_INFO_loop.
  cbn. rewrite app_nil_r. reflexivity.
Qed.

Lemma messages_WARN_run (sig : Signal) (errs : list (option error)) :
  messages WARN (runTrace sig errs) = [receiptMsg sig; terminatedMsg].
Proof.
  unfold runTrace. rewrite !messages_app, messages_WARN_loop. reflexivity.
Qed.

Lemma messages_ERROR_run (sig : Signal) (errs : list (option error)) :
  messages ERROR (runTrace sig errs) = map closeErrorMsg (failureTexts errs).
Proof.
  unfold runTrace. rewrite !messages_app, messages_ERROR_loop.
  cbn. rewrite app_nil_r. reflexivity.
Qed.

Lemma closeCalls_run (sig : Signal) (errs : list (option error)) :
  closeCalls (runTrace sig errs) = seq 0 (List.length errs).
Proof.
  unfold runTrace. rewrite !closeCalls_app, closeCalls_loop.
  cbn. rewrite app_nil_r. reflexivity.
Qed.

Lemma tryingMsg_not_closing (i : nat) : tryingMsg i <> closingMsg.
Proof. unfold tryingMsg, closingMsg. cbn. discriminate. Qed.

Lemma receiptMsg_not_terminated (sig : Signal) :
  receiptMsg sig <> terminatedMsg.
Proof. unfold receiptMsg, terminatedMsg. cbn. discriminate. Qed.

Lemma closing_once (l : list nat) :
  occurrences closingMsg (closingMsg :: map tryingMsg l) = 1%nat.
Proof.
  unfold occurrences. rewrite count_occ_cons_eq by reflexivity. f_equal.
  apply count_occ_not_In. intros Hin. apply in_map_iff in Hin as [i [Hi _]].
  exact (tryingMsg_not_closing i Hi).
Qed.

Lemma terminated_once (sig : Signal) :
  occurrences terminatedMsg [receiptMsg sig; terminatedMsg] = 1%nat.
Proof.
  unfold occurrences.
  rewrite count_occ_cons_neq by apply receiptMsg_not_terminated.
  reflexivity.
Qed.

Lemma append_inj_r (p a b : string) : p ++ a = p ++ b -> a = b.
Proof.
  induction p as [ | ch p IH ]; cbn; intros Heq; [ exact Heq | ].
  injection Heq as Heq. exact (IH Heq).
Qed.

Lemma tryingMsg_inj (i j : nat) : tryingMsg i = tryingMsg j -> i = j.
Proof.
  unfold tryingMsg, itoa. intros Heq. apply append_inj_r in Heq.
  apply Nat2Z.inj, DecimalZ.to_int_inj.
  apply (f_equal NilEmpty.int_of_string) in Heq.
  rewrite !NilEmpty.isi in Heq. congruence.
Qed.

Lemma failureTexts_length (errs : list (option error)) :
  (List.length (failureTexts errs) <= List.length errs)%nat.
Proof.
  unfold failureTexts.
  induction errs as [ | [ e | ] rest IH ]; cbn [flat_map List.length app]; lia.
Qed.

Lemma logLines_loop (errs : list (option error)) : forall i lv msg,
  In (lv, msg) (logLines (loopTrace i errs)) ->
  (lv = INFO /\
   exists j, (i <= j < i + List.length errs)%nat /\ msg = tryingMsg j) \/
  (lv = ERROR /\ exists e, In (Some e) errs /\ msg = closeErrorMsg e).
Proof.
  induction errs as [ | err rest IH ]; intros i lv msg Hin; [ destruct Hin | ].
  cbn [loopTrace] in Hin. rewrite logLines_app in Hin.
  apply in_app_or in Hin as [Hin | Hin].
  - destruct err as [ e | ]; cbn in Hin.
    + destruct Hin as [Heq | [Heq | [ ] ]]; inversion Heq; subst.
      * left. split; [ reflexivity | ]. exists i. cbn. split; [ lia | reflexivity ].
      * right. split; [ reflexivity | ]. exists e. split; [ left | ]; reflexivity.
    + destruct Hin as [Heq | [ ]]; inversion Heq; subst.
      left. split; [ reflexivity | ]. exists i. cbn. split; [ lia | reflexivity ].
  - apply IH in Hin as [ [Hlv [j [Hj Hmsg]]] | [Hlv [e [He Hmsg]]] ].
    + left. split; [ exact Hlv | ]. exists j. cbn. split; [ lia | exact Hmsg ].
    + right. split; [ exact Hlv | ]. exists e. split; [ right; exact He | exact Hmsg ].
Qed.

Lemma completed_receives :
  nthRecv false completed 0 = Some true /\
  forall k, nthRecv false completed (S k) = Some false.
Proof.
  split; [ reflexivity | ].
  intros k. cbn. induction k as [ | k IH ]; [ reflexivity | exact IH ].
Qed.

Open Scope list_scope.

(* ================================================================= *)
(** ** The properties of the specification *)

(** C1.  Whatever the number N of resources and whichever K of them fail
    to close, one call to [Handle] woken by a termination signal logs
    "closing resources..." exactly once at the informational level,
    followed there by exactly the N per-resource messages for the indices
    0, 1, ..., N-1 in ascending order; it logs exactly K error messages, one
    per failing resource and in their order; it logs the terminal warning
    exactly once; and the channel it returns holds exactly one value and is
    closed.  With no resource at all the log is the signal receipt and the
    two bracketing messages. *)
Theorem C1_handle_counts {L W : Type} `{Logger L}
    (closeable : list (Closeable W)) (s : State L W)
    (sig : Signal) (rest : list Signal) (N K : nat) :
  List.length closeable = N ->
  failures closeable (world s) = K ->
  arrival (signals s) = Some (sig, rest) ->
  exists (ch : chan bool) (s' : State L W) (tr : list Event),
    Handle closeable s = Returned ch s' /\
    trace s' = trace s ++ tr /\
    (K <= N)%nat /\
    occurrences "closing resources..." (messages INFO tr) = 1%nat /\
    messages INFO tr =
      "closing resources..." ::
      map (fun i => ("trying to close resource " ++ itoa (Z.of_nat i))%string)
          (seq 0 N) /\
    List.length (messages ERROR tr) = K /\
    messages ERROR tr =
      map (fun e => ("error on close resource: " ++ e)%string)
          (failureTexts (closeErrs closeable (world s))) /\
    occurrences terminatedMsg (messages WARN tr) = 1%nat /\
    List.length (buf ch) = 1%nat /\
    closed ch = true /\
    (N = 0%nat ->
     logLines tr =
       [(WARN, receiptMsg sig); (INFO, "closing resources...");
        (WARN, terminatedMsg)]).
Proof.
  intros HN HK Harr.
  exists completed, (finished s sig rest closeable),
         (runTrace sig (closeErrs closeable (world s))).
  rewrite Handle_run, Harr.
  rewrite messages_INFO_run, messages_ERROR_run, messages_WARN_run.
  rewrite closeErrs_length, HN.
  repeat apply conj.
  1, 2, 5, 7, 9, 10: reflexivity.
  - subst N K. unfold failures.
    rewrite <- (closeErrs_length closeable (world s)).
    apply failureTexts_length.
  - apply closing_once.
  - rewrite length_map. exact HK.
  - apply terminated_once.
  - intros HN0. subst N. apply length_zero_iff_nil in HN0. subst closeable.
    reflexivity.
Qed.

Lemma C1_handle_counts_witness :
  List.length scenario = 2%nat /\
  failures scenario (world (start [SIGHUP; SIGINT])) = 1%nat /\
  arrival (signals (start [SIGHUP; SIGINT])) = Some (SIGINT, []) /\
  exists ch s' tr,
    Handle scenario (start [SIGHUP; SIGINT]) = Returned ch s' /\
    trace s' = trace (start [SIGHUP; SIGINT]) ++ tr /\
    List.length (messages ERROR tr) = 1%nat.
Proof.
  repeat (split; [ reflexivity | ]).
  destruct (C1_handle_counts scenario (start [SIGHUP; SIGINT]) SIGINT [] 2 1
              eq_refl eq_refl eq_refl)
    as (ch & s' & tr & Hrun & Htr & _ & _ & _ & Herr & _).
  exists ch, s', tr. repeat split; assumption.
Defined.

(** C2.  A failing [Close] is reported by one error-level message carrying
    the failure's description and by nothing else: [Close] is still invoked
    on every resource, indices 0 to N-1 in order, each on the state its
    predecessor left; the informational and warning messages are those of a
    run without failures; the run ends with the terminal warning; and
    [Handle] returns, with the same channel whatever failed, also when
    every resource fails. *)
Theorem C2_failures_absorbed {L W : Type} `{Logger L}
    (closeable : list (Closeable W)) (s : State L W)
    (sig : Signal) (rest : list Signal) :
  arrival (signals s) = Some (sig, rest) ->
  exists (s' : State L W) (tr body : list Event),
    Handle closeable s = Returned completed s' /\
    trace s' = trace s ++ tr /\
    closeCalls tr = seq 0 (List.length closeable) /\
    world s' = closeWorld closeable (world s) /\
    messages ERROR tr =
      map (fun e => ("error on close resource: " ++ e)%string)
          (failureTexts (closeErrs closeable (world s))) /\
    messages INFO tr =
      closingMsg :: map tryingMsg (seq 0 (List.length closeable)) /\
    messages WARN tr = [receiptMsg sig; terminatedMsg] /\
    tr = body ++ [Log WARN terminatedMsg] /\
    (failures closeable (world s) = List.length closeable ->
     List.length (messages ERROR tr) = List.length closeable).
Proof.
  intros Harr.
  exists (finished s sig rest closeable),
         (runTrace sig (closeErrs closeable (world s))),
         ([Log WARN (receiptMsg sig); Log INFO closingMsg] ++
          loopTrace 0 (closeErrs closeable (world s))).
  rewrite Handle_run, Harr.
  rewrite messages_INFO_run, messages_ERROR_run, messages_WARN_run,
    closeCalls_run, closeErrs_length.
  repeat apply conj.
  1-7: reflexivity.
  - unfold runTrace. rewrite <- app_assoc. reflexivity.
  - intros Hall. rewrite length_map. exact Hall.
Qed.

Lemma C2_failures_absorbed_witness :
  arrival (signals (start [SIGTERM])) = Some (SIGTERM, []) /\
  exists s',
    Handle [resource (Some "busy"); resource (Some "gone")] (start [SIGTERM])
    = Returned completed s' /\
    closeCalls (trace s') = [0; 1]%nat /\
    world s' = 2%nat.
Proof.
  split; [ reflexivity | ].
  destruct (C2_failures_absorbed
              [resource (Some "busy"); resource (Some "gone")]
              (start [SIGTERM]) SIGTERM [] eq_refl)
    as (s' & tr & body & Hrun & Htr & Hcalls & Hworld & _).
  exists s'. repeat apply conj.
  - exact Hrun.
  - rewrite Htr. exact Hcalls.
  - exact Hworld.
Defined.

(** C3, with the terminal warning as the code words it.  The calls of one
    run, in order: the signal-receipt warning; "closing resources..."; for
    each resource in the order given its "trying to close resource i"
    message, then its [Close] (on the state the previous [Close] left), then
    its error message if that [Close] failed; and last the terminal
    warning.  For an interrupt and the resources [success; failure "disk
    full"] the log lines are exactly the six listed, the last one being
    "system was terminated by system call". *)
Theorem C3_event_order {L W : Type} `{Logger L}
    (closeable : list (Closeable W)) (s : State L W)
    (sig : Signal) (rest : list Signal) :
  arrival (signals s) = Some (sig, rest) ->
  (exists s' : State L W,
     Handle closeable s = Returned completed s' /\
     trace s' =
       trace s ++
       [Log WARN ("system call receipt -> " ++ signalName sig)%string;
        Log INFO "closing resources..."] ++
       loopTrace 0 (closeErrs closeable (world s)) ++
       [Log WARN "system was terminated by system call"] /\
     closeCalls (trace s') =
       closeCalls (trace s) ++ seq 0 (List.length closeable) /\
     world s' = closeWorld closeable (world s)) /\
  (forall (i : nat) (err : option error),
     iterationTrace i err =
     Log INFO ("trying to close resource " ++ itoa (Z.of_nat i))%string ::
     CloseCall i err ::
     match err with
     | Some e => [Log ERROR ("error on close resource: " ++ e)%string]
     | None => []
     end) /\
  (exists s' : State (list (Level * string)) nat,
     Handle scenario (start [SIGINT]) = Returned completed s' /\
     logLines (trace s') =
       [(WARN, "system call receipt -> interrupt");
        (INFO, "closing resources...");
        (INFO, "trying to close resource 0");
        (INFO, "trying to close resource 1");
        (ERROR, "error on close resource: disk full");
        (WARN, "system was terminated by system call")] /\
     closeCalls (trace s') = [0; 1]%nat).
Proof.
  intros Harr. repeat apply conj.
  - exists (finished s sig rest closeable).
    rewrite Handle_run, Harr. repeat apply conj; try reflexivity.
    cbn [finished trace].
    rewrite closeCalls_app, closeCalls_run, closeErrs_length. reflexivity.
  - intros i [ e | ]; reflexivity.
  - eexists. repeat apply conj; reflexivity.
Qed.

Lemma C3_event_order_witness :
  arrival (signals (start [SIGUSR1; SIGQUIT; SIGINT])) =
    Some (SIGQUIT, [SIGINT]) /\
  exists s',
    Handle scenario (start [SIGUSR1; SIGQUIT; SIGINT]) = Returned completed s' /\
    closeCalls (trace s') = [0; 1]%nat.
Proof.
  split; [ reflexivity | ].
  destruct (C3_event_order scenario (start [SIGUSR1; SIGQUIT; SIGINT])
              SIGQUIT [SIGINT] eq_refl)
    as [(s' & Hrun & _ & Hcalls & _) _].
  exists s'. split; [ exact Hrun | exact Hcalls ].
Defined.

(** C3 as worded fails on the scenario it names: the last line logged is
    not "system was terminated by a system call". *)
Lemma C3_scenario_counterexample :
  ~ exists s' : State (list (Level * string)) nat,
      Handle scenario (start [SIGINT]) = Returned completed s' /\
      logLines (trace s') =
        [(WARN, "system call receipt -> interrupt");
         (INFO, "closing resources...");
         (INFO, "trying to close resource 0");
         (INFO, "trying to close resource 1");
         (ERROR, "error on close resource: disk full");
         (WARN, "system was terminated by a system call")].
Proof.
  intros (s' & Hrun & Hlines).
  rewrite Handle_run in Hrun. cbn [start signals arrival] in Hrun.
  change (isTermination SIGINT) with true in Hrun. cbv iota in Hrun.
  injection Hrun as Hs'. subst s'. vm_compute in Hlines. discriminate Hlines.
Qed.

(** C4.  [Handle] never ends the process and never panics: it either waits
    for a signal for ever or returns.  Once a termination signal arrives it
    returns, after the cleanup, a channel that already holds exactly one
    value and is closed, so that the caller's first receive completes
    without blocking and yields that value. *)
Theorem C4_handle_returns_channel {L W : Type} `{Logger L}
    (closeable : list (Closeable W)) (s : State L W) :
  (forall (code : Z) (s' : State L W),
     Handle closeable s <> Exited code s') /\
  (forall s' : State L W, Handle closeable s <> Panicked s') /\
  (forall (sig : Signal) (rest : list Signal),
     arrival (signals s) = Some (sig, rest) ->
     exists (ch : chan bool) (s' : State L W),
       Handle closeable s = Returned ch s' /\
       trace s' = trace s ++ runTrace sig (closeErrs closeable (world s)) /\
       buf ch = [true] /\
       closed ch = true /\
       recv ch = Received true (mkChan [] 1 true)).
Proof.
  rewrite Handle_run. repeat apply conj.
  - intros code s'. destruct (arrival (signals s)) as [ [sig rest] | ];
      discriminate.
  - intros s'. destruct (arrival (signals s)) as [ [sig rest] | ];
      discriminate.
  - intros sig rest ->. exists completed, (finished s sig rest closeable).
    repeat apply conj; reflexivity.
Qed.

Lemma C4_handle_returns_channel_witness :
  arrival (signals (start [SIGINT])) = Some (SIGINT, []) /\
  exists ch s',
    Handle scenario (start [SIGINT]) = Returned ch s' /\
    recv ch = Received true (mkChan [] 1 true).
Proof.
  split; [ reflexivity | ].
  destruct (C4_handle_returns_channel scenario (start [SIGINT]))
    as (_ & _ & Hret).
  destruct (Hret SIGINT [] eq_refl) as (ch & s' & Hrun & _ & _ & _ & Hrecv).
  exists ch, s'. split; [ exact Hrun | exact Hrecv ].
Defined.

(** C5.  [HandleAndTerminate] runs the very sequence of [Handle]: whenever
    [Handle] returns in a state (logger, resources, pending signals, calls
    made), [HandleAndTerminate] ends the process with status 0 in that same
    state, and whenever [Handle] waits for ever so does
    [HandleAndTerminate]; it never returns to its caller. *)
Theorem C5_terminate_after_same_sequence {L W : Type} `{Logger L}
    (closeable : list (Closeable W)) (s : State L W) :
  match Handle closeable s with
  | Returned _ s' => HandleAndTerminate closeable s = Exited 0 s'
  | Blocked s' => HandleAndTerminate closeable s = Blocked s'
  | Exited _ _ | Panicked _ => False
  end /\
  (forall (sig : Signal) (rest : list Signal),
     arrival (signals s) = Some (sig, rest) ->
     HandleAndTerminate closeable s =
     Exited 0 (finished s sig rest closeable)) /\
  (forall (a : unit) (s' : State L W),
     HandleAndTerminate closeable s <> Returned a s').
Proof.
  rewrite Handle_run, HandleAndTerminate_run. repeat apply conj.
  - destruct (arrival (signals s)) as [ [sig rest] | ]; reflexivity.
  - intros sig rest ->. reflexivity.
  - intros a s'. destruct (arrival (signals s)) as [ [sig rest] | ];
      discriminate.
Qed.

Lemma C5_terminate_after_same_sequence_witness :
  arrival (signals (start [SIGTERM])) = Some (SIGTERM, []) /\
  HandleAndTerminate scenario (start [SIGTERM]) =
  Exited 0 (finished (start [SIGTERM]) SIGTERM [] scenario).
Proof.
  split; [ reflexivity | ].
  destruct (C5_terminate_after_same_sequence scenario (start [SIGTERM]))
    as (_ & Hexit & _).
  exact (Hexit SIGTERM [] eq_refl).
Defined.

(** C6, with the terminal warning as the code words it.  Every line one run
    logs has one of five shapes: the warning "system call receipt ->
    <signal-name>"; the informational "closing resources..."; the
    informational "trying to close resource <i>" for an index i of a
    resource; the error "error on close resource: <description>" for the
    description of a failure some [Close] returned; the warning "system was
    terminated by system call", which is logged exactly once. *)
Theorem C6_message_shapes {L W : Type} `{Logger L}
    (closeable : list (Closeable W)) (s : State L W)
    (sig : Signal) (rest : list Signal) :
  arrival (signals s) = Some (sig, rest) ->
  exists (s' : State L W) (tr : list Event),
    Handle closeable s = Returned completed s' /\
    trace s' = trace s ++ tr /\
    (forall (lv : Level) (msg : string),
       In (lv, msg) (logLines tr) ->
       (lv = WARN /\
        msg = ("system call receipt -> " ++ signalName sig)%string) \/
       (lv = INFO /\ msg = "closing resources...") \/
       (lv = INFO /\
        exists i : nat,
          (i < List.length closeable)%nat /\
          msg = ("trying to close resource " ++ itoa (Z.of_nat i))%string) \/
       (lv = ERROR /\
        exists e : error,
          In (Some e) (closeErrs closeable (world s)) /\
          msg = ("error on close resource: " ++ e)%string) \/
       (lv = WARN /\ msg = "system was terminated by system call")) /\
    occurrences "system was terminated by system call" (messages WARN tr)
      = 1%nat.
Proof.
  intros Harr.
  exists (finished s sig rest closeable),
         (runTrace sig (closeErrs closeable (world s))).
  rewrite Handle_run, Harr, messages_WARN_run.
  repeat apply conj.
  1, 2: reflexivity.
  - intros lv msg Hin. unfold runTrace in Hin.
    rewrite !logLines_app in Hin.
    apply in_app_or in Hin as [Hin | Hin];
      [ | apply in_app_or in Hin as [Hin | Hin] ].
    + destruct Hin as [Heq | [Heq | [ ]]]; inversion Heq; subst.
      * left. split; reflexivity.
      * right; left. split; reflexivity.
    + apply logLines_loop in Hin
        as [ [Hlv [j [Hj Hmsg]]] | [Hlv [e [He Hmsg]]] ].
      * right; right; left. split; [ exact Hlv | ]. exists j.
        rewrite closeErrs_length in Hj. split; [ lia | exact Hmsg ].
      * right; right; right; left. split; [ exact Hlv | ]. exists e.
        split; [ exact He | exact Hmsg ].
    + destruct Hin as [Heq | [ ]]; inversion Heq; subst.
      right; right; right; right. split; reflexivity.
  - apply terminated_once.
Qed.

Lemma C6_message_shapes_witness :
  arrival (signals (start [SIGINT])) = Some (SIGINT, []) /\
  exists s' tr,
    Handle scenario (start [SIGINT]) = Returned completed s' /\
    trace s' = trace (start [SIGINT]) ++ tr /\
    occurrences "system was terminated by system call" (messages WARN tr)
      = 1%nat.
Proof.
  split; [ reflexivity | ].
  destruct (C6_message_shapes scenario (start [SIGINT]) SIGINT [] eq_refl)
    as (s' & tr & Hrun & Htr & _ & Honce).
  exists s', tr. repeat apply conj; assumption.
Defined.

(** C6 as worded fails: no run logs the warning "system was terminated by
    a system call"; here the run on no resource woken by an interrupt. *)
Lemma C6_terminal_text_counterexample :
  ~ exists (ch : chan bool) (s' : State (list (Level * string)) nat),
      Handle [] (start [SIGINT]) = Returned ch s' /\
      In (WARN, "system was terminated by a system call")
         (logLines (trace s')).
Proof.
  intros (ch & s' & Hrun & Hin).
  rewrite Handle_run in Hrun. cbn [start signals arrival] in Hrun.
  change (isTermination SIGINT) with true in Hrun. cbv iota in Hrun.
  injection Hrun as _ Hs'. subst s'. vm_compute in Hin.
  destruct Hin as [Heq | [Heq | [Heq | [ ]]]]; discriminate Heq.
Qed.

Lemma add_again (h : handler) (n : Z) : add (add h n) n = add h n.
Proof.
  unfold add. destruct (Z.ltb_spec n 0) as [Hneg | Hpos]; [ reflexivity | ].
  destruct (want h n) eqn:Hwant; [ rewrite Hwant; reflexivity | ].
  assert (Hset : want (set h n) n = true).
  { unfold want, set. cbn [mask].
    rewrite Z.lor_spec, Z.shiftl_spec, Z.sub_diag by assumption.
    apply orb_true_r. }
  rewrite Hset. reflexivity.
Qed.

(** C7.  Listing quit twice in the registration changes nothing: a signal
    added to a handler a second time leaves the handler as it was, the
    handler [do] registers is the one registered with quit listed once, and
    [do] runs exactly as with that single registration on every input.  A
    delivered quit is queued on the signal channel exactly once, and a run
    woken by quit logs the receipt warning exactly once (the warnings are
    the receipt and the terminal one), however many quits follow. *)
Theorem C7_quit_registered_twice {L W : Type} `{Logger L}
    (closeable : list (Closeable W)) (s : State L W) :
  (forall (h : handler) (n : Z), add (add h n) n = add h n) /\
  Notify [SIGTERM; SIGQUIT; SIGQUIT; SIGINT] =
    Notify [SIGTERM; SIGQUIT; SIGINT] /\
  do closeable s = doNotifying [SIGTERM; SIGQUIT; SIGINT] closeable s /\
  process (Notify [SIGTERM; SIGQUIT; SIGQUIT; SIGINT]) SIGQUIT (make 1) =
    Some (mkChan [SIGQUIT] 1 false) /\
  (forall rest : list Signal,
     signals s = SIGQUIT :: rest ->
     exists (s' : State L W) (tr : list Event),
       do closeable s = Returned tt s' /\
       trace s' = trace s ++ tr /\
       messages WARN tr = ["system call receipt -> quit"; terminatedMsg] /\
       occurrences "system call receipt -> quit" (messages WARN tr) = 1%nat).
Proof.
  repeat apply conj.
  - exact add_again.
  - reflexivity.
  - reflexivity.
  - reflexivity.
  - intros rest Hsigs.
    exists (finished s SIGQUIT rest closeable),
           (runTrace SIGQUIT (closeErrs closeable (world s))).
    rewrite do_run, Hsigs, messages_WARN_run.
    repeat apply conj; reflexivity.
Qed.

Lemma C7_quit_registered_twice_witness :
  signals (start [SIGQUIT; SIGQUIT]) = SIGQUIT :: [SIGQUIT] /\
  exists s' tr,
    do scenario (start [SIGQUIT; SIGQUIT]) = Returned tt s' /\
    trace s' = trace (start [SIGQUIT; SIGQUIT]) ++ tr /\
    occurrences "system call receipt -> quit" (messages WARN tr) = 1%nat.
Proof.
  split; [ reflexivity | ].
  destruct (C7_quit_registered_twice scenario (start [SIGQUIT; SIGQUIT]))
    as (_ & _ & _ & _ & Hquit).
  destruct (Hquit [SIGQUIT] eq_refl) as (s' & tr & Hrun & Htr & _ & Honce).
  exists s', tr. repeat apply conj; assumption.
Defined.

(** C8, as the channel behaves.  No receive on the channel [Handle]
    returned ever blocks: the first receive yields [true], the value sent,
    and every later one yields [false], the zero value of a closed and
    drained channel. *)
Theorem C8_receives_after_completion {L W : Type} `{Logger L}
    (closeable : list (Closeable W)) (s : State L W)
    (sig : Signal) (rest : list Signal) (n : nat) :
  arrival (signals s) = Some (sig, rest) ->
  (1 <= n)%nat ->
  exists (ch : chan bool) (s' : State L W),
    Handle closeable s = Returned ch s' /\
    receive ch n = Some (n =? 1)%nat.
Proof.
  intros Harr Hn. exists completed, (finished s sig rest closeable).
  rewrite Handle_run, Harr. split; [ reflexivity | ].
  unfold receive. destruct n as [ | [ | k ] ]; [ lia | reflexivity | ].
  replace (S (S k) - 1)%nat with (S k) by lia.
  apply completed_receives.
Qed.

Lemma C8_receives_after_completion_witness :
  arrival (signals (start [SIGINT])) = Some (SIGINT, []) /\
  (1 <= 3)%nat /\
  exists ch s',
    Handle scenario (start [SIGINT]) = Returned ch s' /\
    receive ch 3 = Some false.
Proof.
  split; [ reflexivity | ]. split; [ lia | ].
  apply (C8_receives_after_completion scenario (start [SIGINT]) SIGINT [] 3).
  - reflexivity.
  - lia.
Defined.

(** C8 as worded fails: the second receive on the channel [Handle]
    returned does not yield the value of the first. *)
Lemma C8_cached_value_counterexample :
  ~ forall n : nat,
      (1 <= n)%nat ->
      exists (ch : chan bool) (s' : State (list (Level * string)) nat),
        Handle [] (start [SIGINT]) = Returned ch s' /\
        receive ch n <> None /\
        receive ch n = receive ch 1.
Proof.
  intros Hall.
  destruct (Hall 2%nat ltac:(lia)) as (ch & s' & Hrun & _ & Hsame).
  rewrite Handle_run in Hrun. cbn [start signals arrival] in Hrun.
  change (isTermination SIGINT) with true in Hrun. cbv iota in Hrun.
  injection Hrun as Hch _. subst ch. discriminate Hsame.
Qed.

(** C9.  Two runs of [Handle] on the same resources in the same state,
    each woken by a termination signal of its own, differ only in the
    signal's name inside the first warning: after that warning the calls
    are the same, [Close] is invoked on the same indices with the same
    results, the resources end in the same state and the same channel is
    returned. *)
Theorem C9_signal_only_names_receipt {L W : Type} `{Logger L}
    (closeable : list (Closeable W)) (s1 s2 : State L W)
    (sig1 sig2 : Signal) (rest1 rest2 : list Signal) :
  world s1 = world s2 ->
  trace s1 = trace s2 ->
  arrival (signals s1) = Some (sig1, rest1) ->
  arrival (signals s2) = Some (sig2, rest2) ->
  exists (ch : chan bool) (s1' s2' : State L W) (tail : list Event),
    Handle closeable s1 = Returned ch s1' /\
    Handle closeable s2 = Returned ch s2' /\
    trace s1' =
      trace s1 ++
      Log WARN ("system call receipt -> " ++ signalName sig1)%string :: tail /\
    trace s2' =
      trace s2 ++
      Log WARN ("system call receipt -> " ++ signalName sig2)%string :: tail /\
    closeCalls (trace s1') = closeCalls (trace s2') /\
    world s1' = world s2' /\
    loggerSt s1' =
      replay tail
        (Warn ("system call receipt -> " ++ signalName sig1)%string
              (loggerSt s1)) /\
    loggerSt s2' =
      replay tail
        (Warn ("system call receipt -> " ++ signalName sig2)%string
              (loggerSt s2)).
Proof.
  intros Hworld Htrace Harr1 Harr2.
  exists completed, (finished s1 sig1 rest1 closeable),
         (finished s2 sig2 rest2 closeable),
         (Log INFO closingMsg ::
          loopTrace 0 (closeErrs closeable (world s1)) ++
          [Log WARN terminatedMsg]).
  rewrite !Handle_run, Harr1, Harr2.
  repeat apply conj; try reflexivity.
  - cbn [finished trace]. rewrite <- Hworld. reflexivity.
  - cbn [finished trace].
    rewrite !closeCalls_app, !closeCalls_run, !closeErrs_length, Htrace.
    reflexivity.
  - cbn [finished world]. rewrite Hworld. reflexivity.
  - cbn [finished loggerSt]. rewrite <- Hworld. reflexivity.
Qed.

Lemma C9_signal_only_names_receipt_witness :
  world (start [SIGINT]) = world (start [SIGHUP; SIGQUIT]) /\
  trace (start [SIGINT]) = trace (start [SIGHUP; SIGQUIT]) /\
  arrival (signals (start [SIGINT])) = Some (SIGINT, []) /\
  arrival (signals (start [SIGHUP; SIGQUIT])) = Some (SIGQUIT, []) /\
  exists ch s1' s2',
    Handle scenario (start [SIGINT]) = Returned ch s1' /\
    Handle scenario (start [SIGHUP; SIGQUIT]) = Returned ch s2' /\
    closeCalls (trace s1') = closeCalls (trace s2') /\
    world s1' = world s2'.
Proof.
  repeat (split; [ reflexivity | ]).
  destruct (C9_signal_only_names_receipt scenario
              (start [SIGINT]) (start [SIGHUP; SIGQUIT]) SIGINT SIGQUIT [] []
              eq_refl eq_refl eq_refl eq_refl)
    as (ch & s1' & s2' & tail & Hrun1 & Hrun2 & _ & _ & Hcalls & Hworld & _).
  exists ch, s1', s2'. repeat apply conj; assumption.
Defined.

(** C10.  The channel [Handle] returns is the same for every input: it
    holds the one value [true], whatever the resources and however many of
    them failed to close.  The first receive yields [true]; the channel
    being closed, every later receive yields [false]. *)
Theorem C10_completion_value_is_true {L W : Type} `{Logger L}
    (closeable : list (Closeable W)) (s : State L W)
    (sig : Signal) (rest : list Signal) :
  arrival (signals s) = Some (sig, rest) ->
  exists s' : State L W,
    Handle closeable s = Returned (mkChan [true] 1 true) s' /\
    nthRecv false (mkChan [true] 1 true) 0 = Some true /\
    (forall k : nat, nthRecv false (mkChan [true] 1 true) (S k) = Some false) /\
    (forall (closeable2 : list (Closeable W)) (w2 : W),
     exists s2' : State L W,
       Handle closeable2
         (mkState (loggerSt s) w2 (signals s) (trace s))
       = Returned (mkChan [true] 1 true) s2').
Proof.
  intros Harr. exists (finished s sig rest closeable).
  rewrite Handle_run, Harr. repeat apply conj.
  - reflexivity.
  - apply completed_receives.
  - apply completed_receives.
  - intros closeable2 w2. rewrite Handle_run. cbn [signals]. rewrite Harr.
    eexists. reflexivity.
Qed.

Lemma C10_completion_value_is_true_witness :
  arrival (signals (start [SIGTERM])) = Some (SIGTERM, []) /\
  exists s',
    Handle [resource (Some "busy"); resource (Some "gone")] (start [SIGTERM])
    = Returned (mkChan [true] 1 true) s'.
Proof.
  split; [ reflexivity | ].
  destruct (C10_completion_value_is_true
              [resource (Some "busy"); resource (Some "gone")]
              (start [SIGTERM]) SIGTERM [] eq_refl)
    as (s' & Hrun & _).
  exists s'. exact Hrun.
Defined.

(* ================================================================= *)
(** ** Further properties of the package *)

Lemma isTermination_true_iff (sig : Signal) :
  isTermination sig = true <->
  sig = SIGINT \/ sig = SIGTERM \/ sig = SIGQUIT.
Proof.
  unfold isTermination. rewrite !orb_true_iff, !Z.eqb_eq. tauto.
Qed.

Lemma isTermination_false_iff (sig : Signal) :
  isTermination sig = false <->
  sig <> SIGINT /\ sig <> SIGTERM /\ sig <> SIGQUIT.
Proof.
  unfold isTermination. rewrite !orb_false_iff, !Z.eqb_neq. tauto.
Qed.

Lemma arrival_none (sigs : list Signal) :
  Forall (fun sig => sig <> SIGINT /\ sig <> SIGTERM /\ sig <> SIGQUIT) sigs ->
  arrival sigs = None.
Proof.
  induction 1 as [ | x sigs Hx _ IH ]; [ reflexivity | ].
  cbn [arrival]. apply isTermination_false_iff in Hx. rewrite Hx. exact IH.
Qed.

Lemma arrival_first (pre : list Signal) (sig : Signal) (rest : list Signal) :
  Forall (fun x => x <> SIGINT /\ x <> SIGTERM /\ x <> SIGQUIT) pre ->
  sig = SIGINT \/ sig = SIGTERM \/ sig = SIGQUIT ->
  arrival (pre ++ sig :: rest) = Some (sig, rest).
Proof.
  intros Hpre Hsig. rewrite (arrival_app_none _ _ (arrival_none _ Hpre)).
  cbn [arrival]. apply isTermination_true_iff in Hsig. rewrite Hsig.
  reflexivity.
Qed.

Lemma replay_keepLines (tr : list Event) : forall l : list (Level * string),
  replay tr l = l ++ logLines tr.
Proof.
  induction tr as [ | e tr IH ]; intros l; [ cbn; rewrite app_nil_r; reflexivity | ].
  change (replay (e :: tr) l) with (replay tr (replay [e] l)).
  rewrite IH. change (e :: tr) with ([e] ++ tr). rewrite logLines_app, app_assoc.
  f_equal. destruct e as [ [ | | ] msg | i err ]; cbn; rewrite ?app_nil_r;
    reflexivity.
Qed.









(** X5.  A logger that keeps the lines it is given ends a run holding what
    it held before followed by the lines of the run, each once and in the
    order of the calls: nothing is logged twice, dropped or reordered on
    the way to the logger. *)
Theorem X5_logger_receives_the_lines {W : Type}
    (closeable : list (Closeable W))
    (s : State (list (Level * string)) W)
    (sig : Signal) (rest : list Signal) :
  arrival (signals s) = Some (sig, rest) ->
  exists (s' : State (list (Level * string)) W) (tr : list Event),
    Handle closeable s = Returned completed s' /\
    trace s' = trace s ++ tr /\
    loggerSt s' = loggerSt s ++ logLines tr /\
    logLines tr =
      (WARN, ("system call receipt -> " ++ signalName sig)%string) ::
      (INFO, "closing resources..."%string) ::
      logLines (loopTrace 0 (closeErrs closeable (world s))) ++
      [(WARN, "system was terminated by system call"%string)].
Proof.
  intros Harr.
  exists (finished s sig rest closeable),
         (runTrace sig (closeErrs closeable (world s))).
  rewrite Handle_run, Harr. repeat apply conj; try reflexivity.
  - cbn [finished loggerSt]. apply replay_keepLines.
  - unfold runTrace. rewrite !logLines_app. reflexivity.
Qed.

Lemma X5_logger_receives_the_lines_witness :
  arrival (signals (start [SIGINT])) = Some (SIGINT, []) /\
  exists s',
    Handle scenario (start [SIGINT]) = Returned completed s' /\
    loggerSt s' =
      [(WARN, "system call receipt -> interrupt"%string);
       (INFO, "closing resources..."%string);
       (INFO, "trying to close resource 0"%string);
       (INFO, "trying to close resource 1"%string);
       (ERROR, "error on close resource: disk full"%string);
       (WARN, "system was terminated by system call"%string)].
Proof.
  split; [ reflexivity | ].
  destruct (X5_logger_receives_the_lines scenario (start [SIGINT]) SIGINT []
              eq_refl)
    as (s' & tr & Hrun & _ & Hlog & Hlines).
  exists s'. split; [ exact Hrun | ].
  rewrite Hlog, Hlines. reflexivity.
Defined.

Lemma closeErrs_app {W : Type} (front back : list (Closeable W)) : forall w,
  closeErrs (front ++ back) w =
  closeErrs front w ++ closeErrs back (closeWorld front w).
Proof.
  induction front as [ | c front IH ]; intros w; [ reflexivity | ].
  cbn [app closeErrs closeWorld]. rewrite IH. reflexivity.
Qed.

Lemma closeWorld_app {W : Type} (front back : list (Closeable W)) : forall w,
  closeWorld (front ++ back) w = closeWorld back (closeWorld front w).
Proof.
  induction front as [ | c front IH ]; intros w; [ reflexivity | ].
  cbn [app closeWorld]. apply IH.
Qed.

Lemma loopTrace_app (errs1 errs2 : list (option error)) : forall i,
  loopTrace i (errs1 ++ errs2) =
  loopTrace i errs1 ++ loopTrace (i + List.length errs1) errs2.
Proof.
  induction errs1 as [ | err errs1 IH ]; intros i.
  - cbn. rewrite Nat.add_0_r. reflexivity.
  - cbn [app loopTrace List.length]. rewrite IH, Nat.add_succ_r, <- app_assoc.
    reflexivity.
Qed.

(** X6.  The close loop over two lists in a row is the loop over the first
    followed by the loop over the second, the indices of the second going
    on from the length of the first and its resources starting from the
    state the first left. *)
Theorem X6_closeLoop_app {L W : Type} `{Logger L}
    (front back : list (Closeable W)) (i : nat) (s : State L W) :
  closeLoop i (front ++ back) s =
  bind (closeLoop i front)
       (fun _ => closeLoop (i + List.length front) back) s /\
  closeErrs (front ++ back) (world s) =
    closeErrs front (world s) ++
    closeErrs back (closeWorld front (world s)).
Proof.
  split; [ | apply closeErrs_app ].
  unfold bind. rewrite !closeLoop_run.
  cbn [world loggerSt signals trace].
  rewrite closeErrs_app, closeWorld_app, loopTrace_app, closeErrs_length,
    replay_app, app_assoc.
  reflexivity.
Qed.

(** X7.  No informational line is logged twice in a run: "closing
    resources..." differs from every per-resource line, and the
    per-resource lines of different indices differ. *)
Theorem X7_informational_lines_distinct {L W : Type} `{Logger L}
    (closeable : list (Closeable W)) (s : State L W)
    (sig : Signal) (rest : list Signal) :
  arrival (signals s) = Some (sig, rest) ->
  exists (s' : State L W) (tr : list Event),
    Handle closeable s = Returned completed s' /\
    trace s' = trace s ++ tr /\
    List.length (messages INFO tr) = S (List.length closeable) /\
    NoDup (messages INFO tr).
Proof.
  intros Harr.
  exists (finished s sig rest closeable),
         (runTrace sig (closeErrs closeable (world s))).
  rewrite Handle_run, Harr, messages_INFO_run, closeErrs_length.
  repeat apply conj; try reflexivity.
  - cbn [List.length]. rewrite length_map, length_seq. reflexivity.
  - constructor.
    + intros Hin. apply in_map_iff in Hin as [i [Hi _]].
      exact (tryingMsg_not_closing i Hi).
    + apply NoDup_map_NoDup_ForallPairs; [ | apply seq_NoDup ].
      intros i j _ _. apply tryingMsg_inj.
Qed.

Lemma X7_informational_lines_distinct_witness :
  arrival (signals (start [SIGQUIT])) = Some (SIGQUIT, []) /\
  exists s' tr,
    Handle scenario (start [SIGQUIT]) = Returned completed s' /\
    trace s' = trace (start [SIGQUIT]) ++ tr /\
    NoDup (messages INFO tr).
Proof.
  split; [ reflexivity | ].
  destruct (X7_informational_lines_distinct scenario (start [SIGQUIT])
              SIGQUIT [] eq_refl)
    as (s' & tr & Hrun & Htr & _ & Hnodup).
  exists s', tr. repeat apply conj; assumption.
Defined.

(** X8.  One termination signal serves one call.  When [Handle] is called
    again after it returned and no further interrupt, terminate or quit is
    delivered, the second call waits for ever: the calls made are those of
    the first run alone and no resource of the second call is closed. *)
Theorem X8_one_signal_one_call {L W : Type} `{Logger L}
    (first second : list (Closeable W)) (s : State L W)
    (pre : list Signal) (sig : Signal) (rest : list Signal) :
  signals s = pre ++ sig :: rest ->
  Forall (fun x => x <> SIGINT /\ x <> SIGTERM /\ x <> SIGQUIT) pre ->
  sig = SIGINT \/ sig = SIGTERM \/ sig = SIGQUIT ->
  Forall (fun x => x <> SIGINT /\ x <> SIGTERM /\ x <> SIGQUIT) rest ->
  exists s' : State L W,
    bind (Handle first) (fun _ => Handle second) s = Blocked s' /\
    trace s' = trace s ++ runTrace sig (closeErrs first (world s)) /\
    closeCalls (trace s') =
      closeCalls (trace s) ++ seq 0 (List.length first) /\
    world s' = closeWorld first (world s).
Proof.
  intros Hsigs Hpre Hsig Hrest.
  exists (starved (finished s sig rest first)).
  unfold bind. rewrite Handle_run, Hsigs, (arrival_first _ _ _ Hpre Hsig).
  rewrite Handle_run. cbn [finished signals]. rewrite (arrival_none _ Hrest).
  repeat apply conj; try reflexivity.
  unfold starved, finished. cbn [trace].
  rewrite closeCalls_app, closeCalls_run, closeErrs_length. reflexivity.
Qed.

Lemma X8_one_signal_one_call_witness :
  exists s',
    bind (Handle scenario) (fun _ => Handle [resource None])
         (start [SIGINT; SIGHUP])
    = Blocked s' /\
    closeCalls (trace s') = [0; 1]%nat.
Proof.
  destruct (X8_one_signal_one_call scenario [resource None]
              (start [SIGINT; SIGHUP]) [] SIGINT [SIGHUP])
    as (s' & Hrun & _ & Hcalls & _).
  - reflexivity.
  - constructor.
  - left; reflexivity.
  - repeat constructor; discriminate.
  - exists s'. split; [ exact Hrun | exact Hcalls ].
Defined.

Lemma do_agrees_with_interleavings_witness :
  steps (Notify [SIGTERM; SIGQUIT; SIGQUIT; SIGINT])
    (initial (signals (start [SIGINT; SIGHUP])) (trace (start [SIGINT; SIGHUP])))
    (mkConfig AtClosing Ended (mkChan [] 1 false) (mkChan [] 1 false) []
       [Log WARN "system call receipt -> interrupt"]) /\
  exists s',
    do scenario (start [SIGINT; SIGHUP]) = Returned tt s' /\
    trace s' =
      [Log WARN "system call receipt -> interrupt"] ++
      Log INFO closingMsg ::
      loopTrace 0 (closeErrs scenario (world (start [SIGINT; SIGHUP]))) ++
      [Log WARN terminatedMsg].
Proof.
  assert (Hsteps :
    steps (Notify [SIGTERM; SIGQUIT; SIGQUIT; SIGINT])
      (initial (signals (start [SIGINT; SIGHUP]))
               (trace (start [SIGINT; SIGHUP])))
      (mkConfig AtClosing Ended (mkChan [] 1 false) (mkChan [] 1 false) []
         [Log WARN "system call receipt -> interrupt"])).
  { (* the interrupt is delivered before the goroutine is started, the
       hangup while the goroutine is about to send *)
    eapply steps_trans;
      [ apply steps_one,
          (step_deliver _ _ _ _ (mkChan [SIGINT] 1 false)); reflexivity | ].
    eapply steps_trans; [ apply steps_one, step_go | ].
    eapply steps_trans;
      [ apply steps_one, (step_recv_signal _ _ _ (mkChan [] 1 false));
        reflexivity | ].
    eapply steps_trans; [ apply steps_one, step_warn | ].
    eapply steps_trans;
      [ apply steps_one, (step_deliver _ _ _ _ (mkChan [] 1 false));
        reflexivity | ].
    eapply steps_trans;
      [ apply steps_one, (step_send _ _ _ _ (mkChan [true] 1 false));
        reflexivity | ].
    apply steps_one, (step_recv_terminate _ _ _ _ _ true). reflexivity. }
  split; [ exact Hsteps | ].
  exact (do_agrees_with_interleavings scenario (start [SIGINT; SIGHUP]) _
           Hsteps eq_refl).
Defined.

Lemma finish_after_receive (v : option Signal) (os : chan Signal)
    (und : list Signal) (tr : list Event) :
  exists c' : Config,
    steps (Notify [SIGTERM; SIGQUIT; SIGQUIT; SIGINT])
      (mkConfig AtRecvTerminate (AtWarn v) os (mkChan [] 1 false) und tr) c' /\
    mainAt c' = AtClosing.
Proof.
  exists (mkConfig AtClosing Ended os (mkChan [] 1 false) und
            (tr ++ [Log WARN ("system call receipt -> " ++ formatV v)%string])).
  split; [ | reflexivity ].
  eapply steps_trans; [ apply steps_one, step_warn | ].
  eapply steps_trans;
    [ apply steps_one, (step_send _ _ _ _ (mkChan [true] 1 false));
      reflexivity | ].
  apply steps_one, (step_recv_terminate _ _ _ _ (mkChan [] 1 false) true).
  reflexivity.
Qed.

Lemma finish_while_waiting (os : chan Signal) (und : list Signal)
    (tr : list Event) (sig : Signal) (rest : list Signal) :
  cap os = 1%nat -> closed os = false ->
  buf os <> [] \/ (buf os = [] /\ arrival und = Some (sig, rest)) ->
  exists c' : Config,
    steps (Notify [SIGTERM; SIGQUIT; SIGQUIT; SIGINT])
      (mkConfig AtRecvTerminate AtRecvSignal os (mkChan [] 1 false) und tr)
      c' /\
    mainAt c' = AtClosing.
Proof.
  intros Hcap Hopen Hcase.
  destruct os as [queued capacity isClosed]. cbn in Hcap, Hopen, Hcase.
  subst capacity isClosed.
  destruct Hcase as [Hqueued | [-> Harr]].
  - destruct queued as [ | x queued ]; [ congruence | ].
    destruct (finish_after_receive (Some x) (mkChan queued 1 false) und tr)
      as (c' & Hsteps & Hmain).
    exists c'. split; [ | exact Hmain ].
    eapply steps_trans; [ | exact Hsteps ].
    apply steps_one, step_recv_signal. reflexivity.
  - destruct (finish_after_receive (Some sig) (mkChan [] 1 false) rest tr)
      as (c' & Hsteps & Hmain).
    exists c'. split; [ | exact Hmain ].
    eapply steps_trans; [ exact (deliveries_until_arrival _ tr _ _ Harr) | ].
    eapply steps_trans; [ | exact Hsteps ].
    apply steps_one, step_recv_signal. reflexivity.
Qed.

(** X10.  No interleaving loses the signal.  When a termination signal is
    among the deliveries, then from every configuration the two goroutines
    and the runtime can get into, in whatever order they took their steps
    (the signal delivered before the goroutine was started, or while it was
    not yet receiving), [do] can still get past [<-terminate]: the signal
    channel's buffer of one keeps the signal for the goroutine, and the
    goroutine's send on [terminate] never waits for [do]. *)
Theorem X10_no_interleaving_loses_the_signal (sigs : list Signal)
    (tr0 : list Event) (sig : Signal) (rest : list Signal) (c : Config) :
  arrival sigs = Some (sig, rest) ->
  steps (Notify [SIGTERM; SIGQUIT; SIGQUIT; SIGINT]) (initial sigs tr0) c ->
  exists c' : Config,
    steps (Notify [SIGTERM; SIGQUIT; SIGQUIT; SIGINT]) c c' /\
    mainAt c' = AtClosing /\
    watcherAt c' = Ended /\
    logged c' = tr0 ++ [Log WARN (receiptMsg sig)].
Proof.
  intros Harr Hsteps.
  assert (Hfinish :
    exists c', steps (Notify [SIGTERM; SIGQUIT; SIGQUIT; SIGINT]) c c' /\
               mainAt c' = AtClosing).
  { destruct (reached_steps _ _ _ Hsteps)
      as (Hcap & Hopen & Htcap & Htopen & delivered & Hsigs & Hat).
    destruct c as [m w os t und tr].
    destruct t as [tq tcap tclosed]. unfold undisturbed in Hat.
    cbn [mainAt watcherAt osSignals terminate undelivered logged
         cap closed buf] in *.
    subst tcap tclosed.
    assert (Hwaiting :
      buf os = match arrival delivered with
               | Some (x, _) => [x]
               | None => []
               end ->
      buf os <> [] \/ (buf os = [] /\ arrival und = Some (sig, rest))).
    { intros Hheld. destruct (arrival delivered) as [ [x r] | ] eqn:Hd.
      - left. rewrite Hheld. discriminate.
      - right. split; [ exact Hheld | ].
        rewrite Hsigs, (arrival_app_none _ _ Hd) in Harr. exact Harr. }
    destruct w as [ | | v | | ].
    - destruct Hat as (-> & Hheld & -> & _).
      destruct (finish_while_waiting os und tr sig rest Hcap Hopen
                  (Hwaiting Hheld)) as (c' & Hgo & Hmain).
      exists c'. split; [ | exact Hmain ].
      eapply steps_trans; [ apply steps_one, step_go | exact Hgo ].
    - destruct Hat as (-> & Hheld & -> & _).
      exact (finish_while_waiting os und tr sig rest Hcap Hopen
               (Hwaiting Hheld)).
    - destruct Hat as (-> & _ & -> & _).
      apply finish_after_receive.
    - destruct Hat as (-> & -> & _).
      exists (mkConfig AtClosing Ended os (mkChan [] 1 false) und tr).
      split; [ | reflexivity ].
      eapply steps_trans;
        [ apply steps_one, (step_send _ _ _ _ (mkChan [true] 1 false));
          reflexivity | ].
      apply steps_one, (step_recv_terminate _ _ _ _ (mkChan [] 1 false) true).
      reflexivity.
    - destruct Hat as ([(-> & ->) | (-> & ->)] & _).
      + exists (mkConfig AtClosing Ended os (mkChan [] 1 false) und tr).
        split; [ | reflexivity ].
        apply steps_one,
          (step_recv_terminate _ _ _ _ (mkChan [] 1 false) true).
        reflexivity.
      + exists (mkConfig AtClosing Ended os (mkChan [] 1 false) und tr).
        split; [ apply steps_none | reflexivity ]. }
  destruct Hfinish as (c' & Hmore & Hmain).
  exists c'. split; [ exact Hmore | ]. split; [ exact Hmain | ].
  destruct (interleavings_agree sigs tr0 c'
              (steps_trans _ _ _ _ Hsteps Hmore) Hmain)
    as (sig' & rest' & earlier & Harr' & _ & Hended & Hlog).
  rewrite Harr in Harr'. injection Harr' as <- <-.
  split; assumption.
Qed.

Lemma X10_no_interleaving_loses_the_signal_witness :
  arrival [SIGHUP; SIGQUIT] = Some (SIGQUIT, []) /\
  steps (Notify [SIGTERM; SIGQUIT; SIGQUIT; SIGINT])
    (initial [SIGHUP; SIGQUIT] [])
    (mkConfig AtGo NotStarted (mkChan [SIGQUIT] 1 false) (make 1) [] []) /\
  exists c',
    steps (Notify [SIGTERM; SIGQUIT; SIGQUIT; SIGINT])
      (mkConfig AtGo NotStarted (mkChan [SIGQUIT] 1 false) (make 1) [] [])
      c' /\
    mainAt c' = AtClosing /\
    logged c' = [Log WARN "system call receipt -> quit"].
Proof.
  assert (Hsteps :
    steps (Notify [SIGTERM; SIGQUIT; SIGQUIT; SIGINT])
      (initial [SIGHUP; SIGQUIT] [])
      (mkConfig AtGo NotStarted (mkChan [SIGQUIT] 1 false) (make 1) [] [])).
  { eapply steps_trans;
      [ apply steps_one, (step_deliver _ _ _ _ (make 1)); reflexivity | ].
    apply steps_one, (step_deliver _ _ _ _ (mkChan [SIGQUIT] 1 false)).
    reflexivity. }
  split; [ reflexivity | ]. split; [ exact Hsteps | ].
  destruct (X10_no_interleaving_loses_the_signal [SIGHUP; SIGQUIT] []
              SIGQUIT [] _ eq_refl Hsteps)
    as (c' & Hmore & Hmain & _ & Hlog).
  exists c'. repeat apply conj; assumption.
Defined.
